(** * Hybrid KEM combiner of the OQS provider: model and properties

    A shallow embedding of [oqsprov/oqs_hyb_kem.c].  The file composes a
    post-quantum KEM (liboqs) with a classical key exchange (OpenSSL EVP)
    and lays the two ciphertexts and the two shared secrets out side by
    side.  The primitives of liboqs and OpenSSL are an interface
    ([Backend]); the combiner is translated statement by statement into a
    small state-and-exit monad over the caller's buffers. *)

From stdpp Require Import base option list gmap.
From Stdlib Require Import ZArith NArith Lia.
From Stdlib Require Import Strings.Byte.

#[local] Open Scope Z_scope.

(** ** Machine data *)

(** Byte buffers.  A pointer argument that carries no length is modelled by
    the bytes that start at the pointed address (a view); a possibly null
    pointer is an [option]. *)
Abbreviation bytes := (list byte).

(** [size_t] is 64 bits wide (LP64); its addition wraps around. *)
Definition SIZE_BITS : N := 64.
Definition size_t_add (a b : N) : N := ((a + b) mod 2 ^ SIZE_BITS)%N.

(** Conversion of a [size_t] argument to a [uint16_t] parameter. *)
Definition to_uint16 (n : N) : N := (n mod 2 ^ 16)%N.
Definition is_uint16 (n : N) : Prop := (n < 2 ^ 16)%N.

(** liboqs status codes ([OQS_STATUS] in oqs/common.h). *)
Definition OQS_SUCCESS : Z := 0.
Definition OQS_ERROR : Z := -1.

(** [memcpy]-like write of [data] at offset [off] of [buf]; a write that
    does not fit in the buffer is a buffer overflow and has no result. *)
Definition store (buf : bytes) (off : nat) (data : bytes) : option bytes :=
  if decide (off + length data ≤ length buf)%nat
  then Some (take off buf ++ data ++ drop (off + length data) buf)
  else None.

(** The [len] bytes found at offset [off] of [buf], when they are all there. *)
Definition bytes_at (buf : bytes) (off len : nat) : option bytes :=
  if decide (off + len ≤ length buf)%nat
  then Some (take len (drop off buf))
  else None.

(** ** Composite key and ciphertext layout *)

(** Modelled from the spec: the macro [DECODE_UINT32] of oqsx.h is not among
    the sources modelled here; the composite key layout reads
    [kemLen:uint32(big-endian) || kemBytes || kexLen:uint32(big-endian) ||
    kexBytes], so the macro assembles four bytes, most significant first.
    Reading past the end of the buffer has no result. *)
Definition DECODE_UINT32 (pbuf : bytes) : option N :=
  match pbuf with
  | b0 :: b1 :: b2 :: b3 :: _ =>
      Some (N.lor (N.lor (N.lor (N.shiftl (Byte.to_N b0) 24)
                                (N.shiftl (Byte.to_N b1) 16))
                         (N.shiftl (Byte.to_N b2) 8))
                  (Byte.to_N b3))
  | _ => None
  end.

(** [oqsx_get_pubkey_ptr]: the two length fields and the two views into the
    composite public key.  [None] when [pubkey] is null or a length field
    lies outside the buffer (the C code dereferences without a check). *)
Definition oqsx_get_pubkey_ptr (pubkey : option bytes)
  : option (bytes * N * bytes * N) :=
  pubkey ← pubkey;
  pubkey_kemlen ← DECODE_UINT32 pubkey;
  pubkey_kexlen ← DECODE_UINT32 (drop (N.to_nat (4 + pubkey_kemlen)) pubkey);
  let pubkey_kem := drop 4 pubkey in
  let pubkey_kex := drop (N.to_nat (4 + pubkey_kemlen + 4)) pubkey in
  Some (pubkey_kem, pubkey_kemlen, pubkey_kex, pubkey_kexlen).

(** [oqsx_get_privkey_ptr]: the same for the composite private key. *)
Definition oqsx_get_privkey_ptr (privkey : option bytes)
  : option (bytes * N * bytes * N) :=
  privkey ← privkey;
  privkey_kemlen ← DECODE_UINT32 privkey;
  privkey_kexlen ← DECODE_UINT32 (drop (N.to_nat (4 + privkey_kemlen)) privkey);
  let privkey_kem := drop 4 privkey in
  let privkey_kex := drop (N.to_nat (4 + privkey_kemlen + 4)) privkey in
  Some (privkey_kem, privkey_kemlen, privkey_kex, privkey_kexlen).

(** [oqsx_get_ct_ptr].  Pointers are addresses ([None] is the null
    pointer); the three lengths are [uint16_t] values, the comparison and
    [index] are [int].  The result is the return value together with the
    final contents of [*ct1] and [*ct2], which are left as they were on
    failure. *)
Definition oqsx_get_ct_ptr (ct : option N) (ctlen : N)
    (ct1 : option N) (ct1len : N) (ct2 : option N) (ct2len : N)
  : Z * option N * option N :=
  let ret := 1 in
  let index := 0%N in
  if negb (ctlen =? ct1len + ct2len)%N then (0, ct1, ct2) else
  match ct with
  | None => (0, ct1, ct2)
  | Some ct =>
      let ct1 := Some (ct + index)%N in
      let index := (index + ct1len)%N in
      let ct2 := Some (ct + index)%N in
      (ret, ct1, ct2)
  end.

(** The address range [[p, p + len)] of a view. *)
Definition in_view (p len i : N) : Prop := (p ≤ i < p + len)%N.

(** ** The primitives *)

(** The fields of [OQS_KEM] the combiner reads. *)
Record OQS_KEM := {
  length_ciphertext : N;
  length_shared_secret : N;
}.

(** The fields of the key-exchange descriptor ([kex_info]) the combiner
    reads. *)
Record OQS_EVP_INFO := {
  nid_kex : Z;
  raw_key_support : Z;
  kex_length_public_key : N;
  kex_length_secret : N;
}.

(** liboqs and OpenSSL, as far as the combiner calls them.  [World] is the
    state of the two libraries (allocator, random generator); every call
    threads it.  An object the C code updates through a pointer is returned
    next to the integer result; a buffer a primitive fills is returned as
    the bytes it writes. *)
Class Backend : Type := {
  World : Type;
  EVP_PKEY : Type;
  EVP_PKEY_CTX : Type;
  EVP_PKEY_new : World → option EVP_PKEY * World;
  EVP_PKEY_copy_parameters :
    EVP_PKEY → EVP_PKEY → World → (Z * EVP_PKEY) * World;
  EVP_PKEY_set1_encoded_public_key :
    EVP_PKEY → option bytes → N → World → (Z * EVP_PKEY) * World;
  EVP_PKEY_CTX_new : option EVP_PKEY → World → option EVP_PKEY_CTX * World;
  EVP_PKEY_keygen_init : EVP_PKEY_CTX → World → (Z * EVP_PKEY_CTX) * World;
  EVP_PKEY_keygen : EVP_PKEY_CTX → World → (Z * option EVP_PKEY) * World;
  EVP_PKEY_derive_init : EVP_PKEY_CTX → World → (Z * EVP_PKEY_CTX) * World;
  EVP_PKEY_derive_set_peer :
    EVP_PKEY_CTX → EVP_PKEY → World → (Z * EVP_PKEY_CTX) * World;
  EVP_PKEY_derive : EVP_PKEY_CTX → N → World → (Z * bytes) * World;
  EVP_PKEY_get1_encoded_public_key :
    option EVP_PKEY → World → (N * option bytes) * World;
  EVP_PKEY_new_raw_private_key :
    Z → bytes → N → World → option EVP_PKEY * World;
  d2i_AutoPrivateKey : bytes → N → World → option EVP_PKEY * World;
  OQS_KEM_encaps : OQS_KEM → bytes → World → (Z * bytes * bytes) * World;
  OQS_KEM_decaps :
    OQS_KEM → option bytes → bytes → World → (Z * bytes) * World;
}.

(** What a run has asked of the primitives, in order, with what they
    answered. *)
Inductive event : Type :=
| Ev_EVP_PKEY_new (ok : bool)
| Ev_EVP_PKEY_copy_parameters (ret : Z)
| Ev_EVP_PKEY_set1_encoded_public_key (pub : option bytes) (publen : N) (ret : Z)
| Ev_EVP_PKEY_CTX_new (ok : bool)
| Ev_EVP_PKEY_keygen_init (ret : Z)
| Ev_EVP_PKEY_keygen (ret : Z)
| Ev_EVP_PKEY_derive_init (ret : Z)
| Ev_EVP_PKEY_derive_set_peer (ret : Z)
| Ev_EVP_PKEY_derive (ret : Z) (key : bytes)
| Ev_EVP_PKEY_get1_encoded_public_key (pkeylen : N) (ppub : option bytes)
| Ev_EVP_PKEY_new_raw_private_key (ok : bool)
| Ev_d2i_AutoPrivateKey (ok : bool)
| Ev_OQS_KEM_encaps (status : Z) (ct ss : bytes)
| Ev_OQS_KEM_decaps (ct : option bytes) (status : Z) (ss : bytes).

Section Combiner.
Context {B : Backend}.

(** ** Keys and contexts *)

Record OQS_HYB_KEM := {
  kem : OQS_KEM;
  kexParam : EVP_PKEY;
  kex_info : OQS_EVP_INFO;
}.

(** The fields of [OQSX_KEY] the combiner and the reference counting
    touch. *)
Record OQSX_KEY := {
  references : Z;
  primitive_hybkem : OQS_HYB_KEM;
  pubkey : option bytes;
  privkey : option bytes;
}.

(** [PROV_OQSHYBKEM_CTX]; [ctx_kem] is a pointer into the store of keys. *)
Record PROV_OQSHYBKEM_CTX := {
  libctx : Z;
  ctx_kem : option positive;
}.

Definition with_references (r : Z) (key : OQSX_KEY) : OQSX_KEY :=
  {| references := r; primitive_hybkem := primitive_hybkem key;
     pubkey := pubkey key; privkey := privkey key |}.

(** Modelled from the spec: [oqsx_key_up_ref] is not among the sources
    modelled here.  "retain(handle): atomic increment of the reference count";
    it fails on a handle that is "already being destroyed". *)
Definition oqsx_key_up_ref (keys : gmap positive OQSX_KEY) (key : positive)
  : Z * gmap positive OQSX_KEY :=
  match keys !! key with
  | Some k =>
      if 0 <? references k
      then (1, <[key := with_references (references k + 1) k]> keys)
      else (0, keys)
  | None => (0, keys)
  end.

(** Modelled from the spec: [oqsx_key_free] is not among the sources
    modelled here.  "release(handle): atomic decrement; when count reaches zero,
    securely erases private-key bytes and deallocates".  Releasing the
    null handle does nothing. *)
Definition oqsx_key_free (keys : gmap positive OQSX_KEY)
    (key : option positive) : gmap positive OQSX_KEY :=
  match key with
  | None => keys
  | Some key =>
      match keys !! key with
      | Some k =>
          if references k - 1 <=? 0
          then delete key keys
          else <[key := with_references (references k - 1) k]> keys
      | None => keys
      end
  end.

(** The reference count of a key; a key that is gone counts none. *)
Definition refcount (keys : gmap positive OQSX_KEY) (key : positive) : Z :=
  match keys !! key with Some k => references k | None => 0 end.

(** [oqs_hyb_kem_newctx] (the allocation is taken to succeed). *)
Definition oqs_hyb_kem_newctx (provctx : Z) : PROV_OQSHYBKEM_CTX :=
  {| libctx := provctx; ctx_kem := None |}.

(** [oqs_hyb_kem_freectx]: what is left of the store of keys. *)
Definition oqs_hyb_kem_freectx (keys : gmap positive OQSX_KEY)
    (pkemctx : PROV_OQSHYBKEM_CTX) : gmap positive OQSX_KEY :=
  oqsx_key_free keys (ctx_kem pkemctx).

(** The macros [OQS_HYBKEM_PRINTF], [OQS_HYBKEM_PRINTF2] and
    [OQS_HYBKEM_PRINTF3] expand to nothing under [NDEBUG] and otherwise to
    [if (getenv("OQSHYBKEM")) printf(...)].  [debug] says that the file
    was compiled without [NDEBUG] and runs with [OQSHYBKEM] set, so that
    the arguments of the macros are evaluated.  What is printed is not
    modelled.  The only argument whose evaluation can go wrong is
    [pkemctx->kem] in [oqs_hyb_kem_decapsencaps_init]; every other call of
    the macros prints a constant string or values the function has
    already read. *)

(** [oqs_hyb_kem_decapsencaps_init]: return value, context and store of
    keys after the call, or [None] where the behaviour is undefined.
    [OQS_HYBKEM_PRINTF3] reads [pkemctx->kem] before [pkemctx] is compared
    with [NULL].  [operation] is not used by the C code. *)
Definition oqs_hyb_kem_decapsencaps_init (debug : bool)
    (keys : gmap positive OQSX_KEY)
    (vpkemctx : option PROV_OQSHYBKEM_CTX) (vkem : option positive)
    (operation : Z)
  : option (Z * option PROV_OQSHYBKEM_CTX * gmap positive OQSX_KEY) :=
  (* OQS_HYBKEM_PRINTF3("... New: %p; old: %p \n", vkem, pkemctx->kem); *)
  match debug, vpkemctx with
  | true, None => None
  | _, _ =>
      Some
        match vpkemctx, vkem with
        | Some pkemctx, Some vkem =>
            let '(up, keys) := oqsx_key_up_ref keys vkem in
            if up =? 0 then (0, Some pkemctx, keys) else
            let keys := oqsx_key_free keys (ctx_kem pkemctx) in
            let pkemctx :=
              {| libctx := libctx pkemctx; ctx_kem := Some vkem |} in
            (1, Some pkemctx, keys)
        | _, _ => (0, vpkemctx, keys)
        end
  end.

(** The operation codes of OpenSSL 3.0 (the callee never reads them). *)
Definition EVP_PKEY_OP_ENCAPSULATE : Z := 4096.
Definition EVP_PKEY_OP_DECAPSULATE : Z := 8192.

Definition oqs_hyb_kem_encaps_init debug keys vpkemctx vkem :=
  oqs_hyb_kem_decapsencaps_init debug keys vpkemctx vkem
    EVP_PKEY_OP_ENCAPSULATE.

Definition oqs_hyb_kem_decaps_init debug keys vpkemctx vkem :=
  oqs_hyb_kem_decapsencaps_init debug keys vpkemctx vkem
    EVP_PKEY_OP_DECAPSULATE.

(** The binding the spec words describe: release the old reference first,
    then retain the new handle. *)
Definition init_release_then_retain (keys : gmap positive OQSX_KEY)
    (vpkemctx : option PROV_OQSHYBKEM_CTX) (vkem : option positive)
  : Z * option PROV_OQSHYBKEM_CTX * gmap positive OQSX_KEY :=
  match vpkemctx, vkem with
  | Some pkemctx, Some vkem =>
      let released := oqsx_key_free keys (ctx_kem pkemctx) in
      let '(up, retained) := oqsx_key_up_ref released vkem in
      if up =? 0 then (0, Some pkemctx, keys) else
      (1, Some {| libctx := libctx pkemctx; ctx_kem := Some vkem |}, retained)
  | _, _ => (0, vpkemctx, keys)
  end.

(** ** The monad of a call *)

(** What a call of [encaps] or [decaps] can see and change: the libraries,
    the caller's buffers ([None] for a null pointer) and the two length
    cells.  [st_trace] is a ghost log of the primitive calls. *)
Record state := {
  st_world : World;
  st_trace : list event;
  st_ct : option bytes;
  st_ctlen : N;
  st_secret : option bytes;
  st_secretlen : N;
}.

(** A call either returns an [int] or runs into undefined behaviour (a
    null or dangling dereference, a buffer overflow). *)
Inductive result : Type :=
| Returned (ret : Z) (s : state)
| Fault (s : state).

Definition final (r : result) : state :=
  match r with Returned _ s => s | Fault s => s end.

Definition returned (r : result) : option Z :=
  match r with Returned ret _ => Some ret | Fault _ => None end.

Definition M (A : Type) : Type := state → (A * state) + result.

Definition mret {A} (a : A) : M A := λ s, inl (a, s).

Definition bind {A C} (m : M A) (k : A → M C) : M C :=
  λ s, match m s with
       | inl (a, s') => k a s'
       | inr r => inr r
       end.

(** [return r;] in the middle of the body.  It also stands for
    [goto err] with [ret] set in [oqs_hyb_kem_encaps], whose locals are
    all initialised to [NULL] where they are declared, before any jump:
    the cleanup at its [err:] frees null or assigned pointers and touches
    nothing that [state] holds. *)
Definition return_ {A} (r : Z) : M A := λ s, inr (Returned r s).
Definition fault {A} : M A := λ s, inr (Fault s).

(** The body of a function that falls through to [return ret;]. *)
Definition run (body : M Z) (s : state) : result :=
  match body s with
  | inl (ret, s') => Returned ret s'
  | inr r => r
  end.

Notation "x <~ m ;; k" := (bind m (λ x, k))
  (at level 20, m at level 99, k at level 200, only parsing).
Notation "' pat <~ m ;; k" := (bind m (λ x, match x with pat => k end))
  (at level 20, pat pattern, m at level 99, k at level 200, only parsing).
Notation "'exec' m ;; k" := (bind m (λ _, k))
  (at level 20, m at level 99, k at level 200, only parsing).

(** Updates of the fields of [state]. *)
Definition upd_world (w : World) (e : event) (s : state) : state :=
  {| st_world := w; st_trace := st_trace s ++ [e]; st_ct := st_ct s;
     st_ctlen := st_ctlen s; st_secret := st_secret s;
     st_secretlen := st_secretlen s |}.

Definition upd_ct (buf : bytes) (s : state) : state :=
  {| st_world := st_world s; st_trace := st_trace s; st_ct := Some buf;
     st_ctlen := st_ctlen s; st_secret := st_secret s;
     st_secretlen := st_secretlen s |}.

Definition upd_ctlen (n : N) (s : state) : state :=
  {| st_world := st_world s; st_trace := st_trace s; st_ct := st_ct s;
     st_ctlen := n; st_secret := st_secret s;
     st_secretlen := st_secretlen s |}.

Definition upd_secret (buf : bytes) (s : state) : state :=
  {| st_world := st_world s; st_trace := st_trace s; st_ct := st_ct s;
     st_ctlen := st_ctlen s; st_secret := Some buf;
     st_secretlen := st_secretlen s |}.

Definition upd_secretlen (n : N) (s : state) : state :=
  {| st_world := st_world s; st_trace := st_trace s; st_ct := st_ct s;
     st_ctlen := st_ctlen s; st_secret := st_secret s; st_secretlen := n |}.

(** A call of a primitive: the libraries move on and the call is logged. *)
Definition call {A} (f : World → A * World) (ev : A → event) : M A :=
  λ s, let '(a, w) := f (st_world s) in inl (a, upd_world w (ev a) s).

(** Dereference of a pointer that the C code does not check. *)
Definition deref {A} (p : option A) : M A :=
  match p with Some a => mret a | None => fault end.

(** Modelled from the spec: the macros [ON_ERR_SET_GOTO] and
    [ON_ERR_GOTO] of oqsx.h are not among the sources modelled here; the spec
    calls the pattern "jump-to-cleanup-on-failure".
    [ON_ERR_SET_GOTO(cond, ret, code, err)] sets [ret = code] and jumps to
    [err:], where [ret] is returned. *)
Definition ON_ERR_SET_GOTO (cond : bool) (code : Z) : M unit :=
  if cond then return_ code else mret tt.

(** [ON_ERR_SET_GOTO(!p, ret, code, err)] on a pointer; past it the
    pointer is not null. *)
Definition ON_NULL_SET_GOTO {A} (p : option A) (code : Z) : M A :=
  match p with Some a => mret a | None => return_ code end.

(** A local pointer variable of a function: [Indeterminate] as long as no
    initialiser has run and nothing was assigned, otherwise the pointer it
    holds ([Holds None] is [NULL]). *)
Inductive local (A : Type) : Type :=
| Indeterminate
| Holds (p : option A).
Arguments Indeterminate {A}.
Arguments Holds {A} p.

(** [EVP_PKEY_free] and [EVP_PKEY_CTX_free] at a cleanup label: given
    [NULL] or an object they give back what the object holds, which
    [state] does not show; given an indeterminate pointer the behaviour is
    undefined. *)
Definition EVP_PKEY_free (p : local EVP_PKEY) : M unit :=
  match p with Indeterminate => fault | Holds _ => mret tt end.

Definition EVP_PKEY_CTX_free (p : local EVP_PKEY_CTX) : M unit :=
  match p with Indeterminate => fault | Holds _ => mret tt end.

(** [goto err;] where [err] is the code from the label to the end of the
    function. *)
Definition goto {A} (err : M Z) : M A := λ s, inr (run err s).

(** Modelled from the spec: the macro [ON_ERR_SET_GOTO] of oqsx.h (the
    spec's "jump-to-cleanup-on-failure"), here with the code at [err:]
    given as a function of [ret]: [ON_ERR_SET_GOTO(cond, ret, code, err)]
    sets [ret = code] and jumps to [err:]. *)
Definition ON_ERR_SET_GOTO_at (cond : bool) (code : Z) (err : Z → M Z)
  : M unit :=
  if cond then goto (err code) else mret tt.

(** Modelled from the spec: [ON_ERR_SET_GOTO(!p, ret, code, err)] on a
    pointer, with the code at [err:]; past it the pointer is not null. *)
Definition ON_NULL_SET_GOTO_at {A} (p : option A) (code : Z)
    (err : Z → M Z) : M A :=
  match p with Some a => mret a | None => goto (err code) end.

Definition get_ct : M (option bytes) := λ s, inl (st_ct s, s).
Definition get_secret : M (option bytes) := λ s, inl (st_secret s, s).
Definition get_ctlen : M N := λ s, inl (st_ctlen s, s).
Definition set_ctlen (n : N) : M unit := λ s, inl (tt, upd_ctlen n s).
Definition set_secretlen (n : N) : M unit := λ s, inl (tt, upd_secretlen n s).

(** A primitive or [memcpy] writes [data] at [secret + off]. *)
Definition store_secret (off : N) (data : bytes) : M unit :=
  λ s, match st_secret s ≫= λ buf, store buf (N.to_nat off) data with
       | Some buf => inl (tt, upd_secret buf s)
       | None => inr (Fault s)
       end.

(** A primitive or [memcpy] writes [data] through the pointer [p] into
    the ciphertext buffer, whose base is address 0. *)
Definition store_ct (p : option N) (data : bytes) : M unit :=
  λ s, match p ≫= λ off, st_ct s ≫= λ buf, store buf (N.to_nat off) data with
       | Some buf => inl (tt, upd_ct buf s)
       | None => inr (Fault s)
       end.

(** The address of a buffer (0) or null. *)
Definition addr_of (buf : option bytes) : option N :=
  match buf with Some _ => Some 0%N | None => None end.

(** What a reader finds behind the pointer [p] into [buf]. *)
Definition view (buf : option bytes) (p : option N) : option bytes :=
  off ← p; buf ← buf; Some (drop (N.to_nat off) buf).

Definition is_null {A} (p : option A) : bool :=
  match p with Some _ => false | None => true end.

(** ** Encapsulation *)

(** [oqs_hyb_kem_encaps].  The debug printing prints a constant string
    and, at the size query, lengths the function has stored or read
    already; it is left out.  [ret] and [ret2] are bound anew at each
    assignment; [EVP_PKEY_derive] receives the room [kexDeriveLen] and the
    length it stores back is not read again. *)
Definition oqs_hyb_kem_encaps_body (keys : gmap positive OQSX_KEY)
    (pkemctx : PROV_OQSHYBKEM_CTX) : M Z :=
  let ret := OQS_SUCCESS in
  let ct1 : option N := None in
  let ct2 : option N := None in
  (* OQS_HYB_KEM *hybkem = oqsx_get_hyb_kem(pkemctx); *)
  key <~ deref (ctx_kem pkemctx ≫= λ k, keys !! k) ;;
  let hybkem := primitive_hybkem key in
  '(pubkey_kem, pubkey_kemlen, pubkey_kex, pubkey_kexlen) <~
    deref (oqsx_get_pubkey_ptr (pubkey key)) ;;
  let kexDeriveLen := kex_length_secret (kex_info hybkem) in
  exec set_ctlen (size_t_add (length_ciphertext (kem hybkem)) pubkey_kexlen) ;;
  exec set_secretlen
    (size_t_add (length_shared_secret (kem hybkem)) kexDeriveLen) ;;
  ct <~ get_ct ;;
  secret <~ get_secret ;;
  if is_null ct || is_null secret then return_ 1 else
  ctlen <~ get_ctlen ;;
  peerpk <~ call EVP_PKEY_new (λ p, Ev_EVP_PKEY_new (negb (is_null p))) ;;
  peerpk <~ ON_NULL_SET_GOTO peerpk (-1) ;;
  '(ret2, peerpk) <~ call (EVP_PKEY_copy_parameters peerpk (kexParam hybkem))
                          (λ r, Ev_EVP_PKEY_copy_parameters r.1) ;;
  exec ON_ERR_SET_GOTO (ret2 <=? 0) (-1) ;;
  '(ret2, peerpk) <~
    call (EVP_PKEY_set1_encoded_public_key peerpk (Some pubkey_kex)
            pubkey_kexlen)
         (λ r, Ev_EVP_PKEY_set1_encoded_public_key (Some pubkey_kex)
                 pubkey_kexlen r.1) ;;
  exec ON_ERR_SET_GOTO (ret2 <=? 0) (-1) ;;
  kgctx <~ call (EVP_PKEY_CTX_new (Some (kexParam hybkem)))
                (λ p, Ev_EVP_PKEY_CTX_new (negb (is_null p))) ;;
  kgctx <~ ON_NULL_SET_GOTO kgctx (-1) ;;
  '(ret2, kgctx) <~ call (EVP_PKEY_keygen_init kgctx)
                         (λ r, Ev_EVP_PKEY_keygen_init r.1) ;;
  exec ON_ERR_SET_GOTO (negb (ret2 =? 1)) (-1) ;;
  '(ret2, pkey) <~ call (EVP_PKEY_keygen kgctx)
                        (λ r, Ev_EVP_PKEY_keygen r.1) ;;
  exec ON_ERR_SET_GOTO (negb (ret2 =? 1)) (-1) ;;
  ctx <~ call (EVP_PKEY_CTX_new pkey)
              (λ p, Ev_EVP_PKEY_CTX_new (negb (is_null p))) ;;
  ctx <~ ON_NULL_SET_GOTO ctx (-1) ;;
  '(ret, ctx) <~ call (EVP_PKEY_derive_init ctx)
                      (λ r, Ev_EVP_PKEY_derive_init r.1) ;;
  exec ON_ERR_SET_GOTO (ret <=? 0) (-1) ;;
  '(ret, ctx) <~ call (EVP_PKEY_derive_set_peer ctx peerpk)
                      (λ r, Ev_EVP_PKEY_derive_set_peer r.1) ;;
  exec ON_ERR_SET_GOTO (ret <=? 0) (-1) ;;
  (* the return value of oqsx_get_ct_ptr is dropped *)
  let '(_, ct1, ct2) :=
    oqsx_get_ct_ptr (addr_of ct) (to_uint16 ctlen)
      ct1 (to_uint16 (length_ciphertext (kem hybkem)))
      ct2 (to_uint16 pubkey_kexlen) in
  '(ret, ss_kex) <~ call (EVP_PKEY_derive ctx kexDeriveLen)
                         (λ r, Ev_EVP_PKEY_derive r.1 r.2) ;;
  exec store_secret (length_shared_secret (kem hybkem)) ss_kex ;;
  exec ON_ERR_SET_GOTO (ret <=? 0) (-1) ;;
  '(status, ct_kem, ss_kem) <~
    call (OQS_KEM_encaps (kem hybkem) pubkey_kem)
         (λ r, Ev_OQS_KEM_encaps r.1.1 r.1.2 r.2) ;;
  exec store_ct ct1 ct_kem ;;
  exec store_secret 0 ss_kem ;;
  let ret := if OQS_SUCCESS =? status then 1 else 0 in
  exec ON_ERR_SET_GOTO (ret =? 0) (-1) ;;
  '(pkeylen, ctkex_encoded) <~
    call (EVP_PKEY_get1_encoded_public_key pkey)
         (λ r, Ev_EVP_PKEY_get1_encoded_public_key r.1 r.2) ;;
  exec ON_ERR_SET_GOTO
    ((pkeylen <=? 0)%N || is_null ctkex_encoded
     || negb (pkeylen =? pubkey_kexlen)%N) (-1) ;;
  (* memcpy(ct2, ctkex_encoded, pkeylen); *)
  src <~ deref (ctkex_encoded ≫= λ e, bytes_at e 0 (N.to_nat pkeylen)) ;;
  exec store_ct ct2 src ;;
  mret ret.

Definition oqs_hyb_kem_encaps keys pkemctx : state → result :=
  run (oqs_hyb_kem_encaps_body keys pkemctx).

(** ** Decapsulation *)

(** The code at [err:] of [oqs_hyb_kem_decaps], with what the three locals
    hold when it is reached. *)
Definition oqs_hyb_kem_decaps_err (peerpkey pkey : local EVP_PKEY)
    (ctx : local EVP_PKEY_CTX) (ret : Z) : M Z :=
  exec EVP_PKEY_free peerpkey ;;
  exec EVP_PKEY_free pkey ;;
  exec EVP_PKEY_CTX_free ctx ;;
  mret ret.

(** [oqs_hyb_kem_decaps]; [ctlen] is passed by value, the ciphertext is
    read only.  The guard on [pkemctx->kem] jumps to [err:] with [ret]
    still [OQS_SUCCESS], over the declarations of [ctx], [pkey] and
    [peerpkey], whose initialisers therefore have not run.  [ctx] is
    declared without an initialiser and assigned by [EVP_PKEY_CTX_new]
    only.  The test [!peerpkey] after [EVP_PKEY_set1_encoded_public_key]
    is on a pointer already known not to be null. *)
Definition oqs_hyb_kem_decaps_body (keys : gmap positive OQSX_KEY)
    (pkemctx : PROV_OQSHYBKEM_CTX) (ctlen : N) : M Z :=
  let ret := OQS_SUCCESS in
  (* ON_ERR_GOTO(!pkemctx->kem, err); *)
  if is_null (ctx_kem pkemctx)
  then goto (oqs_hyb_kem_decaps_err Indeterminate Indeterminate
               Indeterminate ret)
  else
  key <~ deref (ctx_kem pkemctx ≫= λ k, keys !! k) ;;
  let hybkem := primitive_hybkem key in
  let ct1 : option N := None in
  let ct2 : option N := None in
  let pubkey_kexlen := kex_length_public_key (kex_info hybkem) in
  let kexDeriveLen := kex_length_secret (kex_info hybkem) in
  (* EVP_PKEY_CTX *ctx;  EVP_PKEY *pkey = NULL, *peerpkey = NULL; *)
  let ctx : local EVP_PKEY_CTX := Indeterminate in
  let no_pkey : local EVP_PKEY := Holds None in
  let no_peerpkey : local EVP_PKEY := Holds None in
  '(privkey_kem, privkey_kemlen, privkey_kex, privkey_kexlen) <~
    deref (oqsx_get_privkey_ptr (privkey key)) ;;
  exec set_secretlen
    (size_t_add (length_shared_secret (kem hybkem)) kexDeriveLen) ;;
  secret <~ get_secret ;;
  if is_null secret then return_ 1 else
  pkey <~
    (if negb (raw_key_support (kex_info hybkem) =? 0)
     then
       pkey <~ call (EVP_PKEY_new_raw_private_key
                       (nid_kex (kex_info hybkem)) privkey_kex privkey_kexlen)
                    (λ p, Ev_EVP_PKEY_new_raw_private_key (negb (is_null p))) ;;
       ON_NULL_SET_GOTO_at pkey (-1)
         (oqs_hyb_kem_decaps_err no_peerpkey (Holds pkey) ctx)
     else
       pkey <~ call (d2i_AutoPrivateKey privkey_kex privkey_kexlen)
                    (λ p, Ev_d2i_AutoPrivateKey (negb (is_null p))) ;;
       ON_NULL_SET_GOTO_at pkey (-1)
         (oqs_hyb_kem_decaps_err no_peerpkey (Holds pkey) ctx)) ;;
  ct <~ get_ct ;;
  (* the return value of oqsx_get_ct_ptr is dropped *)
  let '(_, ct1, ct2) :=
    oqsx_get_ct_ptr (addr_of ct) (to_uint16 ctlen)
      ct1 (to_uint16 (length_ciphertext (kem hybkem)))
      ct2 (to_uint16 pubkey_kexlen) in
  peerpkey <~ call EVP_PKEY_new (λ p, Ev_EVP_PKEY_new (negb (is_null p))) ;;
  peerpkey <~ ON_NULL_SET_GOTO_at peerpkey (-1)
                (oqs_hyb_kem_decaps_err (Holds peerpkey) (Holds (Some pkey))
                   ctx) ;;
  '(ret2, peerpkey) <~
    call (EVP_PKEY_copy_parameters peerpkey (kexParam hybkem))
         (λ r, Ev_EVP_PKEY_copy_parameters r.1) ;;
  exec ON_ERR_SET_GOTO_at (ret2 <=? 0) (-1)
         (oqs_hyb_kem_decaps_err (Holds (Some peerpkey)) (Holds (Some pkey))
            ctx) ;;
  '(ret2, peerpkey) <~
    call (EVP_PKEY_set1_encoded_public_key peerpkey (view ct ct2)
            pubkey_kexlen)
         (λ r, Ev_EVP_PKEY_set1_encoded_public_key (view ct ct2)
                 pubkey_kexlen r.1) ;;
  exec ON_ERR_SET_GOTO_at (ret2 <=? 0) (-1)
         (oqs_hyb_kem_decaps_err (Holds (Some peerpkey)) (Holds (Some pkey))
            ctx) ;;
  let err := oqs_hyb_kem_decaps_err (Holds (Some peerpkey))
               (Holds (Some pkey)) in
  ctx <~ call (EVP_PKEY_CTX_new (Some pkey))
              (λ p, Ev_EVP_PKEY_CTX_new (negb (is_null p))) ;;
  ctx <~ ON_NULL_SET_GOTO_at ctx (-1) (err (Holds ctx)) ;;
  '(ret, ctx) <~ call (EVP_PKEY_derive_init ctx)
                      (λ r, Ev_EVP_PKEY_derive_init r.1) ;;
  exec ON_ERR_SET_GOTO_at (ret <=? 0) (-1) (err (Holds (Some ctx))) ;;
  '(ret, ctx) <~ call (EVP_PKEY_derive_set_peer ctx peerpkey)
                      (λ r, Ev_EVP_PKEY_derive_set_peer r.1) ;;
  exec ON_ERR_SET_GOTO_at (ret <=? 0) (-1) (err (Holds (Some ctx))) ;;
  '(ret, ss_kex) <~ call (EVP_PKEY_derive ctx kexDeriveLen)
                         (λ r, Ev_EVP_PKEY_derive r.1 r.2) ;;
  exec store_secret (length_shared_secret (kem hybkem)) ss_kex ;;
  exec ON_ERR_SET_GOTO_at (ret <=? 0) (-1) (err (Holds (Some ctx))) ;;
  '(status, ss_kem) <~
    call (OQS_KEM_decaps (kem hybkem) (view ct ct1) privkey_kem)
         (λ r, Ev_OQS_KEM_decaps (view ct ct1) r.1 r.2) ;;
  exec store_secret 0 ss_kem ;;
  let ret := if OQS_SUCCESS =? status then 1 else 0 in
  (* err: *)
  err (Holds (Some ctx)) ret.

Definition oqs_hyb_kem_decaps keys pkemctx ctlen : state → result :=
  run (oqs_hyb_kem_decaps_body keys pkemctx ctlen).
End Combiner.

Arguments Returned {B} ret s.
Arguments Fault {B} s.
Arguments returned {B} r.
Arguments final {B} r.

(** ** What a log says *)

(** The key-exchange derivation reported failure. *)
Definition kex_derivation_failed (tr : list event) : Prop :=
  ∃ ret key, In (Ev_EVP_PKEY_derive ret key) tr ∧ ret ≤ 0.

(** The KEM decapsulation reported failure. *)
Definition kem_decaps_failed (tr : list event) : Prop :=
  ∃ ct status ss, In (Ev_OQS_KEM_decaps ct status ss) tr
                  ∧ status ≠ OQS_SUCCESS.

(** The KEM encapsulation reported failure. *)
Definition kem_encaps_failed (tr : list event) : Prop :=
  ∃ status ct ss, In (Ev_OQS_KEM_encaps status ct ss) tr
                  ∧ status ≠ OQS_SUCCESS.

(** Setting the key-exchange derivation up ([EVP_PKEY_derive_init] or
    [EVP_PKEY_derive_set_peer]) reported failure. *)
Definition kex_setup_failed (tr : list event) : Prop :=
  ∃ ret, (In (Ev_EVP_PKEY_derive_init ret) tr
          ∨ In (Ev_EVP_PKEY_derive_set_peer ret) tr)
         ∧ ret ≤ 0.

(** The last primitive of the log wrote past the end of a [secret] buffer
    of [room] bytes whose KEM slot is [slot] bytes long. *)
Definition secret_overrun (slot room : nat) (tr : list event) : Prop :=
  match last tr with
  | Some (Ev_EVP_PKEY_derive _ key) => (room < slot + length key)%nat
  | Some (Ev_OQS_KEM_decaps _ _ ss) => (room < length ss)%nat
  | _ => False
  end.

(** Re-encoding the ephemeral public key gave [pkeylen] bytes. *)
Definition reencoded_length (tr : list event) (pkeylen : N) : Prop :=
  ∃ ppub, In (Ev_EVP_PKEY_get1_encoded_public_key pkeylen ppub) tr.

(** ** Contracts of the primitives *)

Section Contracts.
Context {B : Backend}.

(** The lengths of the KEM of liboqs: a successful encapsulation fills
    exactly [length_ciphertext] and [length_shared_secret] bytes, a
    successful decapsulation [length_shared_secret] bytes. *)
Class KEM_lengths : Prop := {
  kem_encaps_lengths :
    ∀ kem pk w ct ss w',
      OQS_KEM_encaps kem pk w = (OQS_SUCCESS, ct, ss, w') →
      length ct = N.to_nat (length_ciphertext kem)
      ∧ length ss = N.to_nat (length_shared_secret kem);
  kem_decaps_length :
    ∀ kem ct sk w ss w',
      OQS_KEM_decaps kem ct sk w = (OQS_SUCCESS, ss, w') →
      length ss = N.to_nat (length_shared_secret kem);
}.

(** The correctness of the KEM: decapsulating the ciphertext of a
    successful encapsulation with the matching secret key succeeds with the
    same shared secret.  [kem_keypair] says which views hold matching
    keys. *)
Class KEM_contract (kem_keypair : OQS_KEM → bytes → bytes → Prop) : Prop := {
  kem_lengths : KEM_lengths;
  kem_correct :
    ∀ kem pk sk, kem_keypair kem pk sk →
    ∀ w ct ss w', OQS_KEM_encaps kem pk w = (OQS_SUCCESS, ct, ss, w') →
    ∀ ctv, take (length ct) ctv = ct →
    ∀ v, ∃ v', OQS_KEM_decaps kem (Some ctv) sk v = (OQS_SUCCESS, ss, v');
}.

(** The key exchange as the initiator (encapsulation) drives it: the peer
    key is built from [pub], an ephemeral key is generated and the secret
    derived; [epk] is what is copied of the encoding of the ephemeral public
    key, asked for in any later state of the libraries. *)
Definition kex_initiator (hybkem : OQS_HYB_KEM) (pub : bytes) (publen : N)
    (ss epk : bytes) : Prop :=
  ∃ w0 peerpk0 w1 r2 peerpk1 w2 r3 peerpk2 w3 kgctx0 w4 kgctx1 w5 pkey w6
    ctx0 w7 r8 ctx1 w8 r9 ctx2 w9 r10 w10 w11 pkeylen enc w12,
    EVP_PKEY_new w0 = (Some peerpk0, w1)
    ∧ EVP_PKEY_copy_parameters peerpk0 (kexParam hybkem) w1 = (r2, peerpk1, w2)
    ∧ 0 < r2
    ∧ EVP_PKEY_set1_encoded_public_key peerpk1 (Some pub) publen w2
      = (r3, peerpk2, w3)
    ∧ 0 < r3
    ∧ EVP_PKEY_CTX_new (Some (kexParam hybkem)) w3 = (Some kgctx0, w4)
    ∧ EVP_PKEY_keygen_init kgctx0 w4 = (1, kgctx1, w5)
    ∧ EVP_PKEY_keygen kgctx1 w5 = (1, pkey, w6)
    ∧ EVP_PKEY_CTX_new pkey w6 = (Some ctx0, w7)
    ∧ EVP_PKEY_derive_init ctx0 w7 = (r8, ctx1, w8)
    ∧ 0 < r8
    ∧ EVP_PKEY_derive_set_peer ctx1 peerpk2 w8 = (r9, ctx2, w9)
    ∧ 0 < r9
    ∧ EVP_PKEY_derive ctx2 (kex_length_secret (kex_info hybkem)) w9
      = (r10, ss, w10)
    ∧ 0 < r10
    ∧ EVP_PKEY_get1_encoded_public_key pkey w11 = (pkeylen, Some enc, w12)
    ∧ bytes_at enc 0 (N.to_nat pkeylen) = Some epk.

(** The key exchange as the responder (decapsulation) drives it from the
    state [v0] of the libraries: the own key is loaded from [priv], the peer
    key is built from [epk] and the secret derived; [v] is the state the
    libraries are left in. *)
Definition kex_responder (hybkem : OQS_HYB_KEM) (priv : bytes) (privlen : N)
    (epk : option bytes) (v0 : World) (ss : bytes) (v : World) : Prop :=
  ∃ pkey v1 peerpkey0 v2 r3 peerpkey1 v3 r4 peerpkey2 v4 ctx0 v5 r6 ctx1 v6
    r7 ctx2 v7 r8,
    (if negb (raw_key_support (kex_info hybkem) =? 0)
     then EVP_PKEY_new_raw_private_key (nid_kex (kex_info hybkem))
            priv privlen v0
     else d2i_AutoPrivateKey priv privlen v0) = (Some pkey, v1)
    ∧ EVP_PKEY_new v1 = (Some peerpkey0, v2)
    ∧ EVP_PKEY_copy_parameters peerpkey0 (kexParam hybkem) v2
      = (r3, peerpkey1, v3)
    ∧ 0 < r3
    ∧ EVP_PKEY_set1_encoded_public_key peerpkey1 epk
        (kex_length_public_key (kex_info hybkem)) v3 = (r4, peerpkey2, v4)
    ∧ 0 < r4
    ∧ EVP_PKEY_CTX_new (Some pkey) v4 = (Some ctx0, v5)
    ∧ EVP_PKEY_derive_init ctx0 v5 = (r6, ctx1, v6)
    ∧ 0 < r6
    ∧ EVP_PKEY_derive_set_peer ctx1 peerpkey2 v6 = (r7, ctx2, v7)
    ∧ 0 < r7
    ∧ EVP_PKEY_derive ctx2 (kex_length_secret (kex_info hybkem)) v7
      = (r8, ss, v)
    ∧ 0 < r8.

(** The key exchange of OpenSSL: whatever secret the initiator derives
    against a valid public key has the announced length, and the responder,
    holding the matching private key and the initiator's ephemeral public
    key, derives the same secret.  [kex_keypair] says which
    (view, length) pairs hold matching keys. *)
Class KEX_contract
    (kex_keypair : OQS_HYB_KEM → bytes → N → bytes → N → Prop) : Prop := {
  kex_correct :
    ∀ hybkem pub publen priv privlen,
      kex_keypair hybkem pub publen priv privlen →
    ∀ ss epk, kex_initiator hybkem pub publen ss epk →
      length ss = N.to_nat (kex_length_secret (kex_info hybkem))
      ∧ ∀ epkv v0,
          take (length epk) epkv = epk →
          ∃ v, kex_responder hybkem priv privlen (Some epkv) v0 ss v;
}.

(** A composite key pair that is well formed for the descriptor [hybkem]:
    both halves decode, the KEM and key-exchange parts match and the
    length prefix of the key-exchange public key is the descriptor's. *)
Definition valid_hybrid_keypair
    (kem_keypair : OQS_KEM → bytes → bytes → Prop)
    (kex_keypair : OQS_HYB_KEM → bytes → N → bytes → N → Prop)
    (hybkem : OQS_HYB_KEM) (pub priv : bytes) : Prop :=
  ∃ pubkey_kem pubkey_kemlen pubkey_kex pubkey_kexlen
    privkey_kem privkey_kemlen privkey_kex privkey_kexlen,
    oqsx_get_pubkey_ptr (Some pub)
    = Some (pubkey_kem, pubkey_kemlen, pubkey_kex, pubkey_kexlen)
    ∧ oqsx_get_privkey_ptr (Some priv)
      = Some (privkey_kem, privkey_kemlen, privkey_kex, privkey_kexlen)
    ∧ kem_keypair (kem hybkem) pubkey_kem privkey_kem
    ∧ kex_keypair hybkem pubkey_kex pubkey_kexlen privkey_kex privkey_kexlen
    ∧ pubkey_kexlen = kex_length_public_key (kex_info hybkem).
(** The room the primitives keep to, whether they succeed or not:
    [EVP_PKEY_derive] writes at most the [keylen] bytes it is given, the KEM
    at most [length_ciphertext] and [length_shared_secret] bytes, and the
    buffer [EVP_PKEY_get1_encoded_public_key] allocates holds the length it
    returns. *)
Class Writes_bounded : Prop := {
  derive_bounded :
    ∀ ctx keylen w ret key w',
      EVP_PKEY_derive ctx keylen w = (ret, key, w') →
      (length key ≤ N.to_nat keylen)%nat;
  kem_encaps_bounded :
    ∀ kem pk w status ct ss w',
      OQS_KEM_encaps kem pk w = (status, ct, ss, w') →
      (length ct ≤ N.to_nat (length_ciphertext kem))%nat
      ∧ (length ss ≤ N.to_nat (length_shared_secret kem))%nat;
  kem_decaps_bounded :
    ∀ kem ct sk w status ss w',
      OQS_KEM_decaps kem ct sk w = (status, ss, w') →
      (length ss ≤ N.to_nat (length_shared_secret kem))%nat;
  encoded_key_whole :
    ∀ pkey w pkeylen enc w',
      EVP_PKEY_get1_encoded_public_key pkey w = (pkeylen, Some enc, w') →
      (N.to_nat pkeylen ≤ length enc)%nat;
}.
End Contracts.

(** ** A small backend to run the combiner on

    One-byte keys over the integers modulo 256: the public key of [a] is
    [a + 3], the shared secret of [a] and the public key [b] is [a + b].
    The KEM draws a byte [r], sends it [length_ciphertext] times and shares
    [r + k] under the key [k].  [toy_faults] lets a primitive misbehave. *)

Definition byte_of_N (n : N) : byte :=
  default x00 (Byte.of_N (n mod 256)).

Definition byte_add (a b : byte) : byte :=
  byte_of_N (Byte.to_N a + Byte.to_N b).

Record toy_pkey := {
  tp_group : N;
  tp_pub : option byte;
  tp_priv : option byte;
}.

Record toy_ctx := {
  tc_key : toy_pkey;
  tc_peer : option byte;
}.

Record toy_faults := {
  derive_fails : bool;
  kem_decaps_fails : bool;
  pub_encoding_padded : bool;
}.

Definition no_faults : toy_faults :=
  {| derive_fails := false; kem_decaps_fails := false;
     pub_encoding_padded := false |}.

Definition toy_load_private (priv : bytes) (len : N) (w : N)
  : option toy_pkey * N :=
  match priv with
  | a :: _ =>
      if (len =? 1)%N
      then (Some {| tp_group := 0; tp_pub := Some (byte_add a x03);
                    tp_priv := Some a |}, w)
      else (None, w)
  | [] => (None, w)
  end.

Definition toy (f : toy_faults) : Backend := {|
  World := N;
  EVP_PKEY := toy_pkey;
  EVP_PKEY_CTX := toy_ctx;
  EVP_PKEY_new := λ w,
    (Some {| tp_group := 0; tp_pub := None; tp_priv := None |}, w);
  EVP_PKEY_copy_parameters := λ to from w,
    (1, {| tp_group := tp_group from; tp_pub := tp_pub to;
           tp_priv := tp_priv to |}, w);
  EVP_PKEY_set1_encoded_public_key := λ pkey pub publen w,
    match pub with
    | Some (b :: _) =>
        if (publen =? 1)%N
        then (1, {| tp_group := tp_group pkey; tp_pub := Some b;
                    tp_priv := tp_priv pkey |}, w)
        else (0, pkey, w)
    | _ => (0, pkey, w)
    end;
  EVP_PKEY_CTX_new := λ pkey w,
    match pkey with
    | Some k => (Some {| tc_key := k; tc_peer := None |}, w)
    | None => (None, w)
    end;
  EVP_PKEY_keygen_init := λ ctx w, (1, ctx, w);
  EVP_PKEY_keygen := λ ctx w,
    let a := byte_of_N w in
    (1, Some {| tp_group := tp_group (tc_key ctx);
                tp_pub := Some (byte_add a x03); tp_priv := Some a |},
     (w + 1)%N);
  EVP_PKEY_derive_init := λ ctx w,
    (if is_null (tp_priv (tc_key ctx)) then 0 else 1, ctx, w);
  EVP_PKEY_derive_set_peer := λ ctx peer w,
    match tp_pub peer with
    | Some b => (1, {| tc_key := tc_key ctx; tc_peer := Some b |}, w)
    | None => (0, ctx, w)
    end;
  EVP_PKEY_derive := λ ctx keylen w,
    match tp_priv (tc_key ctx), tc_peer ctx with
    | Some a, Some b =>
        if derive_fails f || negb (keylen =? 1)%N then (0, [], w)
        else (1, [byte_add a b], w)
    | _, _ => (0, [], w)
    end;
  EVP_PKEY_get1_encoded_public_key := λ pkey w,
    match pkey ≫= tp_pub with
    | Some b =>
        if pub_encoding_padded f then (2%N, Some [b; x00], w)
        else (1%N, Some [b], w)
    | None => (0%N, None, w)
    end;
  EVP_PKEY_new_raw_private_key := λ _ priv len w, toy_load_private priv len w;
  d2i_AutoPrivateKey := λ priv len w, toy_load_private priv len w;
  OQS_KEM_encaps := λ kem pk w,
    match pk with
    | k :: _ =>
        let r := byte_of_N w in
        (OQS_SUCCESS,
         replicate (N.to_nat (length_ciphertext kem)) r,
         replicate (N.to_nat (length_shared_secret kem)) (byte_add r k),
         (w + 1)%N)
    | [] => (OQS_ERROR, [], [], w)
    end;
  OQS_KEM_decaps := λ kem ct sk w,
    match ct, sk with
    | Some (r :: _), k :: _ =>
        if kem_decaps_fails f then (OQS_ERROR, [], w)
        else (OQS_SUCCESS,
              replicate (N.to_nat (length_shared_secret kem)) (byte_add r k),
              w)
    | _, _ => (OQS_ERROR, [], w)
    end;
|}.

(** Matching toy keys. *)
Definition toy_kem_keypair (kem : OQS_KEM) (pk sk : bytes) : Prop :=
  (0 < length_ciphertext kem)%N ∧ ∃ k pk' sk', pk = k :: pk' ∧ sk = k :: sk'.

Definition toy_kex_keypair (hybkem : @OQS_HYB_KEM (toy no_faults))
    (pub : bytes) (publen : N) (priv : bytes) (privlen : N) : Prop :=
  publen = 1%N ∧ privlen = 1%N
  ∧ kex_length_public_key (kex_info hybkem) = 1%N
  ∧ kex_length_secret (kex_info hybkem) = 1%N
  ∧ ∃ a pub' priv', pub = byte_add a x03 :: pub' ∧ priv = a :: priv'.

(** *** A toy key and its contexts *)

Definition toy_kem : OQS_KEM :=
  {| length_ciphertext := 2; length_shared_secret := 2 |}.

Definition toy_info : OQS_EVP_INFO :=
  {| nid_kex := 1034; raw_key_support := 1;
     kex_length_public_key := 1; kex_length_secret := 1 |}.

Definition toy_param : toy_pkey :=
  {| tp_group := 7; tp_pub := None; tp_priv := None |}.

Definition toy_hybkem (f : toy_faults) : @OQS_HYB_KEM (toy f) :=
  @Build_OQS_HYB_KEM (toy f) toy_kem toy_param toy_info.

(** The composite keys of the KEM key [0x2a] and the key-exchange key
    [0x10] (public [0x13]); each part is one byte long. *)
Definition toy_pub : bytes :=
  [x00; x00; x00; x01; x2a; x00; x00; x00; x01; x13].
Definition toy_priv : bytes :=
  [x00; x00; x00; x01; x2a; x00; x00; x00; x01; x10].

Definition toy_key (f : toy_faults) : @OQSX_KEY (toy f) :=
  @Build_OQSX_KEY (toy f) 1 (toy_hybkem f) (Some toy_pub) (Some toy_priv).

Definition toy_keys (f : toy_faults) : gmap positive (@OQSX_KEY (toy f)) :=
  {[ 1%positive := toy_key f ]}.

(** A composite public key whose key-exchange part announces five bytes,
    under the same descriptor. *)
Definition toy_pub_long : bytes :=
  [x00; x00; x00; x01; x2a; x00; x00; x00; x05; x11; x12; x13; x14; x15].

Definition toy_keys_long : gmap positive (@OQSX_KEY (toy no_faults)) :=
  {[ 1%positive :=
       @Build_OQSX_KEY (toy no_faults) 1 (toy_hybkem no_faults)
         (Some toy_pub_long) (Some toy_priv) ]}.

(** The toy key under a KEM whose ciphertexts are 65536 bytes long. *)
Definition toy_big_kem : OQS_KEM :=
  {| length_ciphertext := 65536; length_shared_secret := 2 |}.

Definition toy_big_hybkem : @OQS_HYB_KEM (toy no_faults) :=
  @Build_OQS_HYB_KEM (toy no_faults) toy_big_kem toy_param toy_info.

Definition toy_big_keys : gmap positive (@OQSX_KEY (toy no_faults)) :=
  {[ 1%positive :=
       @Build_OQSX_KEY (toy no_faults) 1 toy_big_hybkem
         (Some toy_pub) (Some toy_priv) ]}.

Definition toy_bound : PROV_OQSHYBKEM_CTX :=
  {| libctx := 0; ctx_kem := Some 1%positive |}.

Definition toy_unbound : PROV_OQSHYBKEM_CTX := oqs_hyb_kem_newctx 0.

(** A call state with buffers filled with [0xee] and a random generator at
    [seed]. *)
Definition toy_state (f : toy_faults) (seed : N) (ct secret : option bytes)
  : @state (toy f) :=
  @Build_state (toy f) seed [] ct 0 secret 0.

Definition filler (n : N) : bytes := replicate (N.to_nat n) xee.

(** The toy key under a KEM whose ciphertexts are 65535 bytes long: with
    the one byte of the key exchange the total no longer fits 16 bits. *)
Definition toy_edge_kem : OQS_KEM :=
  {| length_ciphertext := 65535; length_shared_secret := 2 |}.

Definition toy_edge_keys : gmap positive (@OQSX_KEY (toy no_faults)) :=
  {[ 1%positive :=
       @Build_OQSX_KEY (toy no_faults) 1
         (@Build_OQS_HYB_KEM (toy no_faults) toy_edge_kem toy_param toy_info)
         (Some toy_pub) (Some toy_priv) ]}.

(** The toy libraries with a key exchange whose derivation fails. *)
Definition toy_derive_fails : toy_faults :=
  {| derive_fails := true; kem_decaps_fails := false;
     pub_encoding_padded := false |}.

(** ** Encoding a composite key *)

(** The four bytes [DECODE_UINT32] reads a length from, most significant
    byte first. *)
Definition be32 (n : N) : bytes :=
  [byte_of_N (n / 2 ^ 24); byte_of_N (n / 2 ^ 16); byte_of_N (n / 2 ^ 8);
   byte_of_N n].

(** * Properties *)

(** ** Arithmetic of lengths *)

Lemma size_t_add_exact (a b : N) :
  (a + b < 2 ^ SIZE_BITS)%N → size_t_add a b = (a + b)%N.
Proof. intros Hlt. unfold size_t_add. by apply N.mod_small. Qed.

Lemma to_uint16_small (n : N) : is_uint16 n → to_uint16 n = n.
Proof. intros Hlt. unfold to_uint16. by apply N.mod_small. Qed.

Lemma to_uint16_idemp (n : N) : to_uint16 (to_uint16 n) = to_uint16 n.
Proof. unfold to_uint16. by rewrite N.Div0.mod_mod. Qed.

Lemma to_uint16_wrap (n : N) : to_uint16 (n + 2 ^ 16) = to_uint16 n.
Proof.
  unfold to_uint16.
  rewrite <- N.Div0.add_mod_idemp_r, N.Div0.mod_same, N.add_0_r; done.
Qed.

Lemma uint16_fits_size_t (n : N) : (n < 2 ^ 16 → n < 2 ^ SIZE_BITS)%N.
Proof. intros Hlt. eapply N.lt_trans; [exact Hlt | by vm_compute]. Qed.

(** ** Writes into a buffer *)

Lemma store_fits (buf : bytes) (off : nat) (data : bytes) :
  (off + length data ≤ length buf)%nat →
  store buf off data
  = Some (take off buf ++ data ++ drop (off + length data) buf).
Proof. intros Hle. unfold store. by rewrite decide_True. Qed.


Lemma store_Some (buf : bytes) (off : nat) (data buf' : bytes) :
  store buf off data = Some buf' →
  (off + length data ≤ length buf)%nat
  ∧ buf' = take off buf ++ data ++ drop (off + length data) buf.
Proof. unfold store. case_decide; naive_solver. Qed.

Lemma store_None (buf : bytes) (off : nat) (data : bytes) :
  store buf off data = None → (length buf < off + length data)%nat.
Proof. unfold store. case_decide; [done|]. lia. Qed.

Lemma store_length (buf : bytes) (off : nat) (data buf' : bytes) :
  store buf off data = Some buf' → length buf' = length buf.
Proof.
  intros [Hle ->]%store_Some.
  rewrite !length_app, length_take, length_drop. lia.
Qed.

Lemma store_lookup_ge (buf : bytes) (off : nat) (data buf' : bytes) (i : nat) :
  store buf off data = Some buf' → (off + length data ≤ i)%nat →
  buf' !! i = buf !! i.
Proof.
  intros [Hle ->]%store_Some Hi.
  rewrite lookup_app_r by (rewrite length_take; lia).
  rewrite lookup_app_r by (rewrite length_take; lia).
  rewrite lookup_drop, length_take. f_equal. lia.
Qed.

(** Two writes side by side: [b] at [length a], then [a] at 0. *)
Lemma store_pair (buf : bytes) (a b buf1 buf2 : bytes) :
  store buf (length a) b = Some buf1 →
  store buf1 0 a = Some buf2 →
  buf2 = a ++ b ++ drop (length a + length b) buf.
Proof.
  intros [Hb ->]%store_Some [Ha ->]%store_Some. simpl.
  rewrite drop_app_length'; [done|].
  rewrite length_take. lia.
Qed.

(** The same the other way round: [a] at 0, then [b] at [length a]. *)
Lemma store_pair_rev (buf : bytes) (a b buf1 buf2 : bytes) :
  store buf 0 a = Some buf1 →
  store buf1 (length a) b = Some buf2 →
  buf2 = a ++ b ++ drop (length a + length b) buf.
Proof.
  intros [Ha ->]%store_Some [Hb ->]%store_Some. simpl.
  by rewrite take_app_length, drop_app_add, drop_drop.
Qed.

Lemma bytes_at_length (buf : bytes) (off len : nat) (data : bytes) :
  bytes_at buf off len = Some data → length data = len.
Proof.
  unfold bytes_at. case_decide; [|done]. intros [= <-].
  rewrite length_take, length_drop. lia.
Qed.

(** ** Splitting a ciphertext *)

(** C8. [oqsx_get_ct_ptr] fails (returns 0) exactly when
    [ctlen ≠ ct1len + ct2len] or [ct] is null; otherwise it returns 1 with
    [*ct1 = ct] and [*ct2 = ct + ct1len], two address ranges that do not
    overlap and together cover the [ctlen] bytes of [ct].  The function
    only computes addresses: nothing is copied.  The lengths are the
    [uint16_t] values the function receives. *)
Theorem oqsx_get_ct_ptr_spec (ct : option N) (ctlen ct1len ct2len : N)
    (ct1 ct2 : option N) :
  let '(ret, part1, part2) := oqsx_get_ct_ptr ct ctlen ct1 ct1len ct2 ct2len in
  (ret = 0 ↔ ctlen ≠ (ct1len + ct2len)%N ∨ ct = None)
  ∧ (ret = 0 → part1 = ct1 ∧ part2 = ct2)
  ∧ (ret ≠ 0 →
     ret = 1
     ∧ ∃ p, ct = Some p ∧ part1 = Some p ∧ part2 = Some (p + ct1len)%N
            ∧ (∀ i, ¬ (in_view p ct1len i ∧ in_view (p + ct1len) ct2len i))
            ∧ (∀ i, in_view p ctlen i
                    ↔ in_view p ct1len i ∨ in_view (p + ct1len) ct2len i)).
Proof.
  unfold oqsx_get_ct_ptr, in_view.
  destruct (N.eqb_spec ctlen (ct1len + ct2len)) as [->|Hne]; simpl.
  - destruct ct as [p|]; simpl.
    + split; [split; [done | intros [?|?]; done]|].
      split; [done|]. intros _. split; [done|].
      exists p. rewrite N.add_0_r.
      repeat split; try done; try lia; intros [?|?]; lia.
    + split; [split; [by right | done]|]. split; done.
  - split; [split; [by left | done]|]. split; done.
Qed.

Section Binding.
Context {B : Backend}.

(** ** Binding a key to a context *)

Lemma refcount_up_ref keys new :
  0 < refcount keys new →
  ∃ k, keys !! new = Some k ∧ 0 < references k
       ∧ oqsx_key_up_ref keys new
         = (1, <[new := with_references (references k + 1) k]> keys).
Proof.
  unfold refcount, oqsx_key_up_ref. intros Hlive.
  destruct (keys !! new) as [k|] eqn:Hk; [|lia].
  exists k. apply Z.ltb_lt in Hlive as Hb. by rewrite Hb.
Qed.

Lemma refcount_up_ref_dead keys new :
  ¬ 0 < refcount keys new → oqsx_key_up_ref keys new = (0, keys).
Proof.
  unfold refcount, oqsx_key_up_ref. intros Hdead.
  destruct (keys !! new) as [k|] eqn:Hk; [|done].
  apply Z.ltb_nlt in Hdead. by rewrite Hdead.
Qed.

Lemma refcount_free_same keys old k :
  keys !! old = Some k →
  refcount (oqsx_key_free keys (Some old)) old = Z.max 0 (references k - 1).
Proof.
  unfold refcount, oqsx_key_free. intros ->.
  destruct (Z.leb_spec (references k - 1) 0).
  - rewrite lookup_delete_eq. lia.
  - rewrite lookup_insert_eq. simpl. lia.
Qed.

Lemma refcount_free_other keys old key :
  old ≠ Some key →
  refcount (oqsx_key_free keys old) key = refcount keys key.
Proof.
  unfold refcount, oqsx_key_free. intros Hne.
  destruct old as [old|]; [|done].
  assert (old ≠ key) by congruence.
  destruct (keys !! old) as [k|]; [|done].
  destruct (references k - 1 <=? 0).
  - by rewrite lookup_delete_ne.
  - by rewrite lookup_insert_ne.
Qed.

(** On a context that is there, the debug printing changes nothing. *)
Lemma init_on_context (debug : bool) (keys : gmap positive OQSX_KEY)
    (pkemctx : PROV_OQSHYBKEM_CTX) (vkem : option positive) (operation : Z) :
  oqs_hyb_kem_decapsencaps_init debug keys (Some pkemctx) vkem operation
  = oqs_hyb_kem_decapsencaps_init false keys (Some pkemctx) vkem operation.
Proof. by destruct debug. Qed.

(** C6, as the code has it.  On a context, [oqs_hyb_kem_decapsencaps_init]
    first retains the new handle; only when that succeeds does it release
    the reference the context held and store the new handle: the new key
    gains one reference and the old key loses one (no net change when both
    are the same key).  When the handle is null or the retain fails, it
    returns 0 and leaves the binding (and every count) as it was. *)
Theorem init_retains_then_releases (debug : bool)
    (keys : gmap positive OQSX_KEY)
    (pkemctx : PROV_OQSHYBKEM_CTX) (vkem : option positive) (operation : Z) :
  ∃ ret ctx' keys',
    oqs_hyb_kem_decapsencaps_init debug keys (Some pkemctx) vkem operation
    = Some (ret, ctx', keys')
    ∧ match vkem with
      | Some new =>
          if 0 <? refcount keys new then
            ret = 1
            ∧ ctx' = Some {| libctx := libctx pkemctx; ctx_kem := Some new |}
            ∧ keys'
              = oqsx_key_free (oqsx_key_up_ref keys new).2 (ctx_kem pkemctx)
            ∧ (ctx_kem pkemctx ≠ Some new →
               refcount keys' new = refcount keys new + 1)
            ∧ (ctx_kem pkemctx = Some new →
               refcount keys' new = refcount keys new)
            ∧ (∀ old, ctx_kem pkemctx = Some old → old ≠ new →
                      0 < refcount keys old →
                      refcount keys' old = refcount keys old - 1)
          else ret = 0 ∧ ctx' = Some pkemctx ∧ keys' = keys
      | None => ret = 0 ∧ ctx' = Some pkemctx ∧ keys' = keys
      end.
Proof.
  rewrite init_on_context. unfold oqs_hyb_kem_decapsencaps_init.
  destruct vkem as [new|]; [|by eexists _, _, _].
  destruct (Z.ltb_spec 0 (refcount keys new)) as [Hlive|Hdead].
  - destruct (refcount_up_ref keys new Hlive) as (k & Hk & Hpos & ->).
    simpl. eexists _, _, _. split; [reflexivity|]. repeat split.
    + intros Hne. rewrite refcount_free_other by done.
      unfold refcount. rewrite lookup_insert_eq, Hk. done.
    + intros ->.
      erewrite refcount_free_same by apply lookup_insert_eq.
      unfold refcount. rewrite Hk. simpl. lia.
    + intros old -> Hne Hold.
      unfold refcount in Hold.
      destruct (keys !! old) as [ko|] eqn:Hko; [|lia].
      erewrite refcount_free_same
        by (rewrite lookup_insert_ne by done; exact Hko).
      unfold refcount. rewrite Hko. lia.
  - rewrite refcount_up_ref_dead by lia. by eexists _, _, _.
Qed.
End Binding.

(** C6, as the spec words it, fails on the code: a context that holds the
    only reference to a key and is bound to that same key again keeps the
    key alive and returns 1 (retain, then release), where releasing first
    destroys the key and makes the retain fail. *)
Lemma init_release_first_counterexample :
  (oqs_hyb_kem_decapsencaps_init false (toy_keys no_faults) (Some toy_bound)
     (Some 1%positive) EVP_PKEY_OP_ENCAPSULATE
   = Some (1, Some toy_bound, toy_keys no_faults))
  ∧ (init_release_then_retain (toy_keys no_faults) (Some toy_bound)
       (Some 1%positive)).1.1 = 0.
Proof. split; vm_compute; reflexivity. Qed.

(** The binding theorem at a context that holds key 1 and takes key 2. *)
Lemma init_retains_then_releases_witness :
  let keys : gmap positive (@OQSX_KEY (toy no_faults)) :=
    <[2%positive := toy_key no_faults]> (toy_keys no_faults) in
  ∃ ctx' keys',
    oqs_hyb_kem_decapsencaps_init true keys (Some toy_bound)
      (Some 2%positive) EVP_PKEY_OP_DECAPSULATE = Some (1, ctx', keys')
    ∧ refcount keys' 2%positive = 2 ∧ refcount keys' 1%positive = 0.
Proof.
  intros keys.
  destruct (init_retains_then_releases true keys toy_bound (Some 2%positive)
              EVP_PKEY_OP_DECAPSULATE) as (ret & ctx' & keys' & Hrun & H).
  change (0 <? refcount keys 2) with true in H.
  destruct H as (-> & _ & _ & Hnew & _ & Hold).
  exists ctx', keys'. split; [exact Hrun|]. split.
  - rewrite Hnew; [done | discriminate].
  - rewrite (Hold 1%positive); done.
Defined.
(** ** Running a call symbolically *)

Ltac Z_bools :=
  repeat match goal with
    | H : (_ <=? _) = true |- _ => apply Z.leb_le in H
    | H : (_ <=? _) = false |- _ => apply Z.leb_gt in H
    | H : (_ =? _) = true |- _ => apply Z.eqb_eq in H
    | H : (_ =? _) = false |- _ => apply Z.eqb_neq in H
    | H : negb _ = true |- _ => apply negb_true_iff in H
    | H : negb _ = false |- _ => apply negb_false_iff in H
    end.

Ltac N_bools :=
  repeat match goal with
    | H : (_ || _) = false |- _ => apply orb_false_iff in H as [? ?]
    | H : (_ =? _)%N = true |- _ => apply N.eqb_eq in H
    | H : (_ =? _)%N = false |- _ => apply N.eqb_neq in H
    | H : (_ <=? _)%N = true |- _ => apply N.leb_le in H
    | H : (_ <=? _)%N = false |- _ => apply N.leb_gt in H
    | H : negb _ = true |- _ => apply negb_true_iff in H
    | H : negb _ = false |- _ => apply negb_false_iff in H
    end.

(** One step of a run: split on what the next primitive, test or write
    gives. *)
Ltac run_step :=
  match goal with
  | |- context [match ?e with _ => _ end] =>
      lazymatch e with
      | context [match _ with _ => _ end] => fail
      | _ => destruct e eqn:?
      end
  end; simpl in *.

Ltac run_unfold :=
  unfold oqs_hyb_kem_decaps, oqs_hyb_kem_encaps,
    oqs_hyb_kem_decaps_body, oqs_hyb_kem_encaps_body,
    ON_ERR_SET_GOTO_at, ON_NULL_SET_GOTO_at, goto, oqs_hyb_kem_decaps_err,
    EVP_PKEY_free, EVP_PKEY_CTX_free, run, bind, call, deref,
    ON_ERR_SET_GOTO, ON_NULL_SET_GOTO, get_ct, get_secret, get_ctlen,
    set_ctlen, set_secretlen, store_secret, store_ct, mret, return_, fault;
  simpl.

Section Calls.
Context {B : Backend}.

(** ** Calls on a context without a key *)

(** C5.  On a context that holds no key neither call fails cleanly.
    [oqs_hyb_kem_decaps] takes its guard and jumps to [err:] with [ret]
    still [OQS_SUCCESS], over the declarations of [ctx], [pkey] and
    [peerpkey], and frees the three pointers, none of which was ever set;
    [oqs_hyb_kem_encaps] has no guard and dereferences the null key.  Both
    are undefined behaviour, reached before anything else is done. *)
Theorem unbound_context_compute (keys : gmap positive OQSX_KEY) (l : Z)
    (ctlen : N) (s : state) :
  let unbound := {| libctx := l; ctx_kem := None |} in
  oqs_hyb_kem_decaps keys unbound ctlen s = Fault s
  ∧ oqs_hyb_kem_encaps keys unbound s = Fault s.
Proof. done. Qed.

(** ** Length queries *)

(** C10.  With a bound key whose composite private key decodes, a call of
    [oqs_hyb_kem_decaps] with a null [secret] returns 1 and leaves
    [length_shared_secret + kex_length_secret] (a [size_t] sum) in
    [*secretlen]; whatever [ct] and [ctlen] are, no primitive is called and
    nothing else changes. *)
Theorem decaps_length_query (keys : gmap positive OQSX_KEY)
    (pkemctx : PROV_OQSHYBKEM_CTX) (k : positive) (key : OQSX_KEY)
    (privkey_kem privkey_kex : bytes) (privkey_kemlen privkey_kexlen : N)
    (ctlen : N) (s : state) :
  ctx_kem pkemctx = Some k →
  keys !! k = Some key →
  oqsx_get_privkey_ptr (privkey key)
  = Some (privkey_kem, privkey_kemlen, privkey_kex, privkey_kexlen) →
  st_secret s = None →
  let kemSecretLen := length_shared_secret (kem (primitive_hybkem key)) in
  let kexSecretLen := kex_length_secret (kex_info (primitive_hybkem key)) in
  ∃ s',
    oqs_hyb_kem_decaps keys pkemctx ctlen s = Returned 1 s'
    ∧ st_secretlen s' = size_t_add kemSecretLen kexSecretLen
    ∧ ((kemSecretLen + kexSecretLen < 2 ^ SIZE_BITS)%N →
       st_secretlen s' = (kemSecretLen + kexSecretLen)%N)
    ∧ st_world s' = st_world s
    ∧ st_trace s' = st_trace s
    ∧ st_ct s' = st_ct s
    ∧ st_ctlen s' = st_ctlen s
    ∧ st_secret s' = st_secret s.
Proof.
  intros Hk Hkey Hpriv Hsec kemSecretLen kexSecretLen.
  eexists. split.
  - unfold oqs_hyb_kem_decaps, run, oqs_hyb_kem_decaps_body, bind.
    rewrite Hk. simpl. rewrite Hkey. simpl. rewrite Hpriv. simpl.
    rewrite Hsec. reflexivity.
  - simpl. split; [done|]. split; [apply size_t_add_exact|done].
Qed.

(** C7, as the code has it.  With a bound key whose composite public key
    decodes, a call of [oqs_hyb_kem_encaps] with a null [ct] or a null
    [secret] returns 1, calls no primitive and changes nothing but the two
    length cells: [*secretlen] is [length_shared_secret +
    kex_length_secret], and [*ctlen] is [length_ciphertext] plus the
    key-exchange length read from the bound public key, which is
    [kex_length_public_key] when the key announces that length. *)
Theorem encaps_size_query (keys : gmap positive OQSX_KEY)
    (pkemctx : PROV_OQSHYBKEM_CTX) (k : positive) (key : OQSX_KEY)
    (pubkey_kem pubkey_kex : bytes) (pubkey_kemlen pubkey_kexlen : N)
    (s : state) :
  ctx_kem pkemctx = Some k →
  keys !! k = Some key →
  oqsx_get_pubkey_ptr (pubkey key)
  = Some (pubkey_kem, pubkey_kemlen, pubkey_kex, pubkey_kexlen) →
  st_ct s = None ∨ st_secret s = None →
  let hybkem := primitive_hybkem key in
  let kemCtLen := length_ciphertext (kem hybkem) in
  let kexPubLen := kex_length_public_key (kex_info hybkem) in
  let kemSecretLen := length_shared_secret (kem hybkem) in
  let kexSecretLen := kex_length_secret (kex_info hybkem) in
  ∃ s',
    oqs_hyb_kem_encaps keys pkemctx s = Returned 1 s'
    ∧ st_ctlen s' = size_t_add kemCtLen pubkey_kexlen
    ∧ st_secretlen s' = size_t_add kemSecretLen kexSecretLen
    ∧ (pubkey_kexlen = kexPubLen → (kemCtLen + kexPubLen < 2 ^ SIZE_BITS)%N →
       st_ctlen s' = (kemCtLen + kexPubLen)%N)
    ∧ ((kemSecretLen + kexSecretLen < 2 ^ SIZE_BITS)%N →
       st_secretlen s' = (kemSecretLen + kexSecretLen)%N)
    ∧ st_world s' = st_world s
    ∧ st_trace s' = st_trace s
    ∧ st_ct s' = st_ct s
    ∧ st_secret s' = st_secret s.
Proof.
  intros Hk Hkey Hpub Hnull hybkem kemCtLen kexPubLen kemSecretLen kexSecretLen.
  eexists. split.
  - unfold oqs_hyb_kem_encaps, run, oqs_hyb_kem_encaps_body, bind.
    rewrite Hk. simpl. rewrite Hkey. simpl. rewrite Hpub. simpl.
    destruct Hnull as [-> | ->]; simpl; [reflexivity|].
    destruct (st_ct s); reflexivity.
  - simpl. split; [done|]. split; [done|].
    split; [intros ->; apply size_t_add_exact|].
    split; [apply size_t_add_exact|done].
Qed.

(** ** No partial secret *)

(** C3.  In a call of [oqs_hyb_kem_decaps] on a bound context with a
    [secret] buffer, the call returns 1 only when every step has
    succeeded: the log is then the whole chain of primitives, each with a
    result that says success, the key-exchange derivation and the KEM
    decapsulation among them, and [secret] holds what both wrote.  If
    [EVP_PKEY_derive_init] or [EVP_PKEY_derive_set_peer] reports failure
    the call returns -1 and [secret] is as the caller left it; if
    [EVP_PKEY_derive] reports failure the call returns -1, and if the KEM
    decapsulation reports failure the call returns 0.  After a failure of
    [EVP_PKEY_derive] or of the KEM the call fails to return only when
    that primitive wrote past the end of the caller's [secret] buffer. *)
Theorem decaps_no_partial_secret (keys : gmap positive OQSX_KEY)
    (pkemctx : PROV_OQSHYBKEM_CTX) (k : positive) (key : OQSX_KEY)
    (ctlen : N) (s : state) (secret : bytes) :
  ctx_kem pkemctx = Some k →
  keys !! k = Some key →
  st_secret s = Some secret →
  st_trace s = [] →
  let hybkem := primitive_hybkem key in
  let slot := N.to_nat (length_shared_secret (kem hybkem)) in
  let r := oqs_hyb_kem_decaps keys pkemctx ctlen s in
  let tr := st_trace (final r) in
  let overrun :=
    (∃ s', r = Fault s') ∧ secret_overrun slot (length secret) tr in
  (kex_setup_failed tr →
   ∃ s', r = Returned (-1) s' ∧ st_secret s' = Some secret)
  ∧ (kex_derivation_failed tr → (∃ s', r = Returned (-1) s') ∨ overrun)
  ∧ (kem_decaps_failed tr → (∃ s', r = Returned 0 s') ∨ overrun)
  ∧ (returned r = Some 1 →
     ∃ load r_copy pub r_set r_init r_peer r_derive ss_kex ctv ss_kem buf,
       tr = [load; Ev_EVP_PKEY_new true;
             Ev_EVP_PKEY_copy_parameters r_copy;
             Ev_EVP_PKEY_set1_encoded_public_key pub
               (kex_length_public_key (kex_info hybkem)) r_set;
             Ev_EVP_PKEY_CTX_new true;
             Ev_EVP_PKEY_derive_init r_init;
             Ev_EVP_PKEY_derive_set_peer r_peer;
             Ev_EVP_PKEY_derive r_derive ss_kex;
             Ev_OQS_KEM_decaps ctv OQS_SUCCESS ss_kem]
       ∧ (load = Ev_EVP_PKEY_new_raw_private_key true
          ∨ load = Ev_d2i_AutoPrivateKey true)
       ∧ 0 < r_copy ∧ 0 < r_set ∧ 0 < r_init ∧ 0 < r_peer ∧ 0 < r_derive
       ∧ store secret slot ss_kex = Some buf
       ∧ store buf 0 ss_kem = st_secret (final r)).
Proof.
  intros Hk Hkey Hsec Htr hybkem slot r tr overrun.
  subst overrun tr r slot hybkem.
  unfold kex_setup_failed, kex_derivation_failed, kem_decaps_failed.
  run_unfold. rewrite Hk. simpl. rewrite Hkey. simpl. rewrite ?Htr, ?Hsec.
  simpl.
  repeat run_step.
  all: rewrite ?Htr, ?Hsec in *; simpl in *.
  all: Z_bools.
  all: split; [intros (? & [Hin|Hin] & Hle)
              |split; [intros (? & ? & Hin & Hle)
                      |split; [intros (? & ? & ? & Hin & Hne)|intros Hone]]].
  all: try solve [destruct_or?; simplify_eq; eauto; lia || done].
  all: try solve [
    right; split; [eauto|]; unfold secret_overrun; rewrite ?Htr; simpl;
    repeat match goal with
      | H : store _ _ _ = None |- _ => apply store_None in H
      | H : store _ _ _ = Some _ |- _ => apply store_length in H
      end; lia ].
  all: simplify_eq.
  all: do 11 eexists; split; [reflexivity|].
  all: split; [by (left + right)|].
  all: change (N.to_nat 0) with 0%nat in *.
  all: repeat split; (lia || eassumption).
Qed.

(** The length of the ciphertext reaches the length check modulo 65536. *)
Lemma decaps_ctlen_wraps (keys : gmap positive OQSX_KEY)
    (pkemctx : PROV_OQSHYBKEM_CTX) (ctlen : N) (s : state) :
  oqs_hyb_kem_decaps keys pkemctx (ctlen + 2 ^ 16) s
  = oqs_hyb_kem_decaps keys pkemctx ctlen s.
Proof.
  unfold oqs_hyb_kem_decaps, oqs_hyb_kem_decaps_body.
  by rewrite to_uint16_wrap.
Qed.
(** ** Re-encoding the ephemeral public key *)

(** C9.  In a call of [oqs_hyb_kem_encaps], if re-encoding the ephemeral
    public key gives a length other than the key-exchange length read from
    the peer's composite key, the call returns -1 and the bytes of [ct]
    from offset [length_ciphertext] on (the key-exchange part) are as the
    caller left them.  The KEM is taken to fill exactly [length_ciphertext]
    bytes. *)
Theorem encaps_reencoding_mismatch {KL : KEM_lengths}
    (keys : gmap positive OQSX_KEY)
    (pkemctx : PROV_OQSHYBKEM_CTX) (k : positive) (key : OQSX_KEY)
    (pubkey_kem pubkey_kex : bytes) (pubkey_kemlen pubkey_kexlen : N)
    (s : state) (pkeylen : N) :
  ctx_kem pkemctx = Some k →
  keys !! k = Some key →
  oqsx_get_pubkey_ptr (pubkey key)
  = Some (pubkey_kem, pubkey_kemlen, pubkey_kex, pubkey_kexlen) →
  st_trace s = [] →
  let r := oqs_hyb_kem_encaps keys pkemctx s in
  reencoded_length (st_trace (final r)) pkeylen →
  pkeylen ≠ pubkey_kexlen →
  ∃ s', r = Returned (-1) s'
        ∧ ∀ i, (N.to_nat (length_ciphertext (kem (primitive_hybkem key))) ≤ i)%nat →
               (st_ct s' ≫= λ buf, buf !! i) = (st_ct s ≫= λ buf, buf !! i).
Proof.
  intros Hk Hkey Hpub Htr r. subst r. unfold reencoded_length.
  run_unfold. unfold oqsx_get_ct_ptr, addr_of.
  rewrite Hk. simpl. rewrite Hkey. simpl. rewrite Hpub. simpl. rewrite ?Htr.
  repeat run_step.
  all: rewrite ?Htr; simpl.
  all: intros (ppub & Hin) Hne.
  all: try solve [destruct_or?; simplify_eq; done].
  all: destruct_or?; simplify_eq.
  all: N_bools; try done.
  all: eexists; split; [done|]; intros i Hi; simpl.
  all: match goal with H : OQS_KEM_encaps _ _ _ = _ |- _ =>
         apply kem_encaps_lengths in H as [Hct _] end.
  all: match goal with H : st_ct _ = Some _ |- _ => rewrite H in *; simpl in * end.
  all: erewrite store_lookup_ge by (eassumption || lia); done.
Qed.
(** ** Layout of the ciphertext and of the secret *)

Lemma encaps_layout {KL : KEM_lengths}
    (keys : gmap positive OQSX_KEY)
    (pkemctx : PROV_OQSHYBKEM_CTX) (k : positive) (key : OQSX_KEY)
    (pubkey_kem pubkey_kex : bytes) (pubkey_kemlen pubkey_kexlen : N)
    (s s' : state) (ct secret : bytes) :
  ctx_kem pkemctx = Some k →
  keys !! k = Some key →
  oqsx_get_pubkey_ptr (pubkey key)
  = Some (pubkey_kem, pubkey_kemlen, pubkey_kex, pubkey_kexlen) →
  st_trace s = [] →
  st_ct s = Some ct →
  st_secret s = Some secret →
  let hybkem := primitive_hybkem key in
  oqs_hyb_kem_encaps keys pkemctx s = Returned 1 s' →
  ∃ tr ret ss_kex ct_kem ss_kem enc ct_kex,
    st_trace s'
    = tr ++ [Ev_EVP_PKEY_derive ret ss_kex;
             Ev_OQS_KEM_encaps OQS_SUCCESS ct_kem ss_kem;
             Ev_EVP_PKEY_get1_encoded_public_key pubkey_kexlen (Some enc)]
    ∧ 0 < ret
    ∧ bytes_at enc 0 (N.to_nat pubkey_kexlen) = Some ct_kex
    ∧ length ss_kem = N.to_nat (length_shared_secret (kem hybkem))
    ∧ length ct_kem = N.to_nat (length_ciphertext (kem hybkem))
    ∧ length ct_kex = N.to_nat pubkey_kexlen
    ∧ st_secret s'
      = Some (ss_kem ++ ss_kex ++ drop (length ss_kem + length ss_kex) secret)
    ∧ ((length_ciphertext (kem hybkem) + pubkey_kexlen < 2 ^ 16)%N →
       st_ct s'
       = Some (ct_kem ++ ct_kex ++ drop (length ct_kem + length ct_kex) ct)).
Proof.
  intros Hk Hkey Hpub Htr Hct Hsec hybkem. subst hybkem.
  run_unfold. unfold oqsx_get_ct_ptr, addr_of.
  rewrite Hk. simpl. rewrite Hkey. simpl. rewrite Hpub. simpl.
  rewrite ?Htr, ?Hct, ?Hsec. simpl.
  repeat run_step.
  all: intros Hret; simplify_eq.
  all: rewrite ?Htr, ?Hct, ?Hsec in *; simpl in *.
  all: Z_bools; N_bools.
  destruct o3 as [enc|]; [simpl in *|done]. subst n.
  apply kem_encaps_lengths in Heqp16 as Hlen. destruct Hlen as [Hl2 Hl1].
  rewrite !N.add_0_l in *. rewrite <- Hl1 in Heqo2.
  pose proof (store_pair _ _ _ _ _ Heqo2 Heqo5) as ->.
  apply bytes_at_length in Heqo6 as Hl5.
  eexists _, z5, l, l2, l1, enc, l5.
  split.
  { rewrite Htr. simpl.
    match goal with |- ?l = ?t ++ _ => unify t (take 9 l) end.
    reflexivity. }
  repeat split; try done.
  intros Hfit.
  rewrite to_uint16_small in Heqo7 by (unfold is_uint16; lia).
  rewrite <- Hl2 in Heqo7.
  by pose proof (store_pair_rev _ _ _ _ _ Heqo4 Heqo7) as ->.
Qed.

Lemma decaps_layout {KL : KEM_lengths}
    (keys : gmap positive OQSX_KEY)
    (pkemctx : PROV_OQSHYBKEM_CTX) (k : positive) (key : OQSX_KEY)
    (ctlen : N) (s s' : state) (ct secret : bytes) :
  ctx_kem pkemctx = Some k →
  keys !! k = Some key →
  st_trace s = [] →
  st_ct s = Some ct →
  st_secret s = Some secret →
  let hybkem := primitive_hybkem key in
  let kemCtLen := length_ciphertext (kem hybkem) in
  let kexPubLen := kex_length_public_key (kex_info hybkem) in
  oqs_hyb_kem_decaps keys pkemctx ctlen s = Returned 1 s' →
  ∃ tr ret ss_kex ctv ss_kem,
    st_trace s'
    = tr ++ [Ev_EVP_PKEY_derive ret ss_kex;
             Ev_OQS_KEM_decaps ctv OQS_SUCCESS ss_kem]
    ∧ 0 < ret
    ∧ length ss_kem = N.to_nat (length_shared_secret (kem hybkem))
    ∧ st_secret s'
      = Some (ss_kem ++ ss_kex ++ drop (length ss_kem + length ss_kex) secret)
    ∧ ((kemCtLen + kexPubLen < 2 ^ 16)%N →
       ctlen = (kemCtLen + kexPubLen)%N →
       ctv = Some ct
       ∧ ∃ tr1 r1 tr2,
           tr = tr1 ++ [Ev_EVP_PKEY_set1_encoded_public_key
                          (Some (drop (N.to_nat kemCtLen) ct)) kexPubLen r1]
                    ++ tr2
           ∧ 0 < r1).
Proof.
  intros Hk Hkey Htr Hct Hsec hybkem kemCtLen kexPubLen.
  subst hybkem kemCtLen kexPubLen.
  run_unfold. unfold oqsx_get_ct_ptr, addr_of, view.
  rewrite Hk. simpl. rewrite Hkey. simpl.
  rewrite ?Htr, ?Hct, ?Hsec. simpl.
  repeat run_step.
  all: intros Hret; simplify_eq.
  all: rewrite ?Htr, ?Hct, ?Hsec in *; simpl in *.
  all: Z_bools; N_bools; try done.
  all: rewrite ?N.add_0_l in *; simpl in *.
  all: match goal with H : OQS_KEM_decaps _ _ _ _ = _ |- _ =>
         apply kem_decaps_length in H as Hss end.
  all: match goal with
       | H1 : store _ _ ?b = Some ?m, H2 : store ?m _ ?a = Some _ |- _ =>
           rewrite <- Hss in H1; pose proof (store_pair _ _ _ _ _ H1 H2) as ->
       end.
  all: rewrite Htr; simpl.
  all: eexists [_; _; _; _; _; _; _], _, _, _, _.
  all: split; [reflexivity|].
  all: split; [done|]. all: split; [done|]. all: split; [done|].
  all: intros Hfit ->.
  all: rewrite !to_uint16_small in * by (unfold is_uint16; lia).
  all: try done.
  all: split; [by rewrite drop_0|].
  all: by eexists [_; _; _], _, [_; _; _].
Qed.

(** C4, as the code has it.  A call of [oqs_hyb_kem_encaps] that returns 1
    has derived the key-exchange secret before it ran the KEM, and leaves
    [ss_kem || ss_kex] in [secret]: the KEM secret at offset 0, the
    key-exchange secret at offset [length_shared_secret].  A call of
    [oqs_hyb_kem_decaps] that returns 1 leaves the same layout in
    [secret].  When [length_ciphertext] plus the key-exchange length is
    below 65536, the lengths [oqsx_get_ct_ptr] can take, the encapsulation
    has written the KEM ciphertext at offset 0 of [ct] and the encoded
    ephemeral public key at offset [length_ciphertext], and the
    decapsulation of a ciphertext of that total length has read the KEM
    ciphertext at offset 0 and the peer key at offset
    [length_ciphertext]. *)
Theorem ciphertext_and_secret_layout {KL : KEM_lengths} :
  (∀ (keys : gmap positive OQSX_KEY) (pkemctx : PROV_OQSHYBKEM_CTX)
     (k : positive) (key : OQSX_KEY) (pubkey_kem pubkey_kex : bytes)
     (pubkey_kemlen pubkey_kexlen : N) (s s' : state) (ct secret : bytes),
     ctx_kem pkemctx = Some k →
     keys !! k = Some key →
     oqsx_get_pubkey_ptr (pubkey key)
     = Some (pubkey_kem, pubkey_kemlen, pubkey_kex, pubkey_kexlen) →
     st_trace s = [] →
     st_ct s = Some ct →
     st_secret s = Some secret →
     let hybkem := primitive_hybkem key in
     oqs_hyb_kem_encaps keys pkemctx s = Returned 1 s' →
     ∃ tr ret ss_kex ct_kem ss_kem enc ct_kex,
       st_trace s'
       = tr ++ [Ev_EVP_PKEY_derive ret ss_kex;
                Ev_OQS_KEM_encaps OQS_SUCCESS ct_kem ss_kem;
                Ev_EVP_PKEY_get1_encoded_public_key pubkey_kexlen (Some enc)]
       ∧ 0 < ret
       ∧ bytes_at enc 0 (N.to_nat pubkey_kexlen) = Some ct_kex
       ∧ length ss_kem = N.to_nat (length_shared_secret (kem hybkem))
       ∧ length ct_kem = N.to_nat (length_ciphertext (kem hybkem))
       ∧ length ct_kex = N.to_nat pubkey_kexlen
       ∧ st_secret s'
         = Some (ss_kem ++ ss_kex
                 ++ drop (length ss_kem + length ss_kex) secret)
       ∧ ((length_ciphertext (kem hybkem) + pubkey_kexlen < 2 ^ 16)%N →
          st_ct s'
          = Some (ct_kem ++ ct_kex
                  ++ drop (length ct_kem + length ct_kex) ct)))
  ∧ (∀ (keys : gmap positive OQSX_KEY) (pkemctx : PROV_OQSHYBKEM_CTX)
       (k : positive) (key : OQSX_KEY) (ctlen : N) (s s' : state)
       (ct secret : bytes),
       ctx_kem pkemctx = Some k →
       keys !! k = Some key →
       st_trace s = [] →
       st_ct s = Some ct →
       st_secret s = Some secret →
       let hybkem := primitive_hybkem key in
       let kemCtLen := length_ciphertext (kem hybkem) in
       let kexPubLen := kex_length_public_key (kex_info hybkem) in
       oqs_hyb_kem_decaps keys pkemctx ctlen s = Returned 1 s' →
       ∃ tr ret ss_kex ctv ss_kem,
         st_trace s'
         = tr ++ [Ev_EVP_PKEY_derive ret ss_kex;
                  Ev_OQS_KEM_decaps ctv OQS_SUCCESS ss_kem]
         ∧ 0 < ret
         ∧ length ss_kem = N.to_nat (length_shared_secret (kem hybkem))
         ∧ st_secret s'
           = Some (ss_kem ++ ss_kex
                   ++ drop (length ss_kem + length ss_kex) secret)
         ∧ ((kemCtLen + kexPubLen < 2 ^ 16)%N →
            ctlen = (kemCtLen + kexPubLen)%N →
            ctv = Some ct
            ∧ ∃ tr1 r1 tr2,
                tr = tr1 ++ [Ev_EVP_PKEY_set1_encoded_public_key
                               (Some (drop (N.to_nat kemCtLen) ct))
                               kexPubLen r1]
                         ++ tr2
                ∧ 0 < r1)).
Proof.
  split; intros.
  - eapply encaps_layout; eauto.
  - eapply decaps_layout; eauto.
Qed.

(** ** Round trip *)

(** What a successful encapsulation has done: the initiator's side of the
    key exchange, one KEM encapsulation, and the two buffers as laid
    out. *)
Lemma encaps_success_chain {KL : KEM_lengths}
    (keys : gmap positive OQSX_KEY)
    (pkemctx : PROV_OQSHYBKEM_CTX) (k : positive) (key : OQSX_KEY)
    (pubkey_kem pubkey_kex : bytes) (pubkey_kemlen pubkey_kexlen : N)
    (s s' : state) (ct secret : bytes) :
  ctx_kem pkemctx = Some k →
  keys !! k = Some key →
  oqsx_get_pubkey_ptr (pubkey key)
  = Some (pubkey_kem, pubkey_kemlen, pubkey_kex, pubkey_kexlen) →
  st_ct s = Some ct →
  st_secret s = Some secret →
  let hybkem := primitive_hybkem key in
  (length_ciphertext (kem hybkem) + pubkey_kexlen < 2 ^ 16)%N →
  oqs_hyb_kem_encaps keys pkemctx s = Returned 1 s' →
  ∃ ss_kex ct_kem ss_kem ct_kex w w',
    kex_initiator hybkem pubkey_kex pubkey_kexlen ss_kex ct_kex
    ∧ OQS_KEM_encaps (kem hybkem) pubkey_kem w = (OQS_SUCCESS, ct_kem, ss_kem, w')
    ∧ length ct_kex = N.to_nat pubkey_kexlen
    ∧ st_ctlen s' = size_t_add (length_ciphertext (kem hybkem)) pubkey_kexlen
    ∧ st_secretlen s'
      = size_t_add (length_shared_secret (kem hybkem))
          (kex_length_secret (kex_info hybkem))
    ∧ st_secret s'
      = Some (ss_kem ++ ss_kex ++ drop (length ss_kem + length ss_kex) secret)
    ∧ st_ct s'
      = Some (ct_kem ++ ct_kex ++ drop (length ct_kem + length ct_kex) ct).
Proof.
  intros Hk Hkey Hpub Hct Hsec hybkem Hfit. subst hybkem.
  run_unfold. unfold oqsx_get_ct_ptr, addr_of.
  rewrite Hk. simpl. rewrite Hkey. simpl. rewrite Hpub. simpl.
  rewrite ?Hct, ?Hsec. simpl.
  repeat run_step.
  all: intros Hret; simplify_eq.
  all: rewrite ?Hct, ?Hsec in *; simpl in *.
  all: Z_bools; N_bools.
  destruct o3 as [enc|]; [simpl in *|done]. subst.
  match goal with H : OQS_KEM_encaps _ _ _ = _ |- _ =>
    apply kem_encaps_lengths in H as Hlen; destruct Hlen as [Hl2 Hl1] end.
  rewrite to_uint16_small in Heqo7 by (unfold is_uint16; lia).
  rewrite !N.add_0_l in *. rewrite <- Hl1 in Heqo2. rewrite <- Hl2 in Heqo7.
  pose proof (store_pair _ _ _ _ _ Heqo2 Heqo5) as ->.
  pose proof (store_pair_rev _ _ _ _ _ Heqo4 Heqo7) as ->.
  apply bytes_at_length in Heqo6 as Hl5.
  eexists l, l2, l1, l5, _, _.
  split.
  { unfold kex_initiator. do 29 eexists.
    repeat (split; [eassumption|]). eassumption. }
  split; [eassumption|].
  repeat split; done.
Qed.

(** C1, as the code has it.  For a valid composite key pair whose two
    ciphertext lengths, [length_ciphertext] and [kex_length_public_key],
    add up to less than 65536, and primitives that keep their contracts,
    decapsulating with the private key the ciphertext that a successful
    encapsulation under the public key produced succeeds, and the bytes it
    leaves in [secret] are those the encapsulation left: [ss_kem ||
    ss_kex].  The two calls may run on different contexts and key objects,
    in any state of the libraries. *)
Theorem encaps_decaps_roundtrip
    (kem_keypair : OQS_KEM → bytes → bytes → Prop)
    (kex_keypair : OQS_HYB_KEM → bytes → N → bytes → N → Prop)
    {KEM : KEM_contract kem_keypair} {KEX : KEX_contract kex_keypair}
    (keys_e keys_d : gmap positive OQSX_KEY)
    (ctx_e ctx_d : PROV_OQSHYBKEM_CTX) (ke kd : positive)
    (key_e key_d : OQSX_KEY) (pub priv : bytes)
    (s s1 sd : state) (ct secret secret_d : bytes) :
  ctx_kem ctx_e = Some ke → keys_e !! ke = Some key_e →
  pubkey key_e = Some pub →
  ctx_kem ctx_d = Some kd → keys_d !! kd = Some key_d →
  privkey key_d = Some priv →
  primitive_hybkem key_d = primitive_hybkem key_e →
  valid_hybrid_keypair kem_keypair kex_keypair (primitive_hybkem key_e)
    pub priv →
  let hybkem := primitive_hybkem key_e in
  let kemSecretLen := length_shared_secret (kem hybkem) in
  let kexSecretLen := kex_length_secret (kex_info hybkem) in
  (length_ciphertext (kem hybkem) + kex_length_public_key (kex_info hybkem)
   < 2 ^ 16)%N →
  st_ct s = Some ct → st_secret s = Some secret →
  oqs_hyb_kem_encaps keys_e ctx_e s = Returned 1 s1 →
  st_ct sd = st_ct s1 →
  st_secret sd = Some secret_d →
  (N.to_nat kemSecretLen + N.to_nat kexSecretLen ≤ length secret_d)%nat →
  ∃ sd' ss,
    oqs_hyb_kem_decaps keys_d ctx_d (st_ctlen s1) sd = Returned 1 sd'
    ∧ length ss = (N.to_nat kemSecretLen + N.to_nat kexSecretLen)%nat
    ∧ st_secretlen sd' = st_secretlen s1
    ∧ ((kemSecretLen + kexSecretLen < 2 ^ SIZE_BITS)%N →
       length ss = N.to_nat (st_secretlen s1))
    ∧ st_secret s1 = Some (ss ++ drop (length ss) secret)
    ∧ st_secret sd' = Some (ss ++ drop (length ss) secret_d).
Proof.
  intros Hke Hkeye Hpub Hkd Hkeyd Hpriv Hhyb Hvalid hybkem kemSecretLen
    kexSecretLen Hfit Hct Hsec Hrun Hctd Hsecd Hroom.
  subst kexSecretLen kemSecretLen hybkem.
  destruct Hvalid as (pubkey_kem & pubkey_kemlen & pubkey_kex & pubkey_kexlen
    & privkey_kem & privkey_kemlen & privkey_kex & privkey_kexlen
    & Hdpub & Hdpriv & Hkem & Hkex & Hkexlen).
  pose proof (@kem_lengths _ _ KEM) as KL.
  rewrite <- Hpub in Hdpub. rewrite <- Hpriv in Hdpriv.
  destruct (encaps_success_chain keys_e ctx_e ke key_e _ _ _ _ s s1 ct secret
              Hke Hkeye Hdpub Hct Hsec ltac:(by rewrite Hkexlen) Hrun)
    as (ss_kex & ct_kem & ss_kem & ct_kex & w & w' & Hinit & Hencaps
        & Hlkex & Hctlen & Hsecretlen & Hs1sec & Hs1ct).
  destruct (kem_encaps_lengths _ _ _ _ _ _ Hencaps) as [Hlct Hlss].
  destruct (kex_correct _ _ _ _ _ Hkex _ _ Hinit) as [Hlsskex Hresp].
  rewrite Hkexlen in *.
  rewrite size_t_add_exact in Hctlen by by apply uint16_fits_size_t.
  rewrite Hs1ct in Hctd.
  specialize (Hresp (drop (N.to_nat (length_ciphertext
                                       (kem (primitive_hybkem key_e))))
                          (ct_kem ++ ct_kex
                           ++ drop (length ct_kem + length ct_kex) ct))
                    (st_world sd)).
  destruct Hresp as [v Hresp].
  { rewrite <- Hlct, drop_app_length. by rewrite take_app_length. }
  destruct (kem_correct _ _ _ Hkem _ _ _ _ Hencaps
              (ct_kem ++ ct_kex ++ drop (length ct_kem + length ct_kex) ct)
              ltac:(by rewrite take_app_length) v) as [v' Hdecaps].
  destruct Hresp as (pkey & v1 & peerpkey0 & v2 & r3 & peerpkey1 & v3 & r4
    & peerpkey2 & v4 & ctx0 & v5 & r6 & ctx1 & v6 & r7 & ctx2 & v7 & r8
    & Hload & Hnew & Hcopy & Hr3 & Hset & Hr4 & Hctx & Hinit6 & Hr6
    & Hpeer & Hr7 & Hderive & Hr8).
  assert (Hst1 : ∃ b1, store secret_d
                         (N.to_nat (length_shared_secret
                                      (kem (primitive_hybkem key_e)))) ss_kex
                       = Some b1) by (rewrite store_fits; [eauto | lia]).
  destruct Hst1 as [b1 Hst1].
  assert (Hst2 : ∃ b2, store b1 0 ss_kem = Some b2).
  { rewrite store_fits; [eauto|].
    apply store_length in Hst1. lia. }
  destruct Hst2 as [b2 Hst2].
  pose proof (store_pair _ _ _ _ _
                ltac:(rewrite Hlss; exact Hst1) Hst2) as Hb2.
  destruct (negb (raw_key_support (kex_info (primitive_hybkem key_e)) =? 0))
    eqn:Hraw.
  all: eexists _, (ss_kem ++ ss_kex); split.
  1, 3: run_unfold; unfold oqsx_get_ct_ptr, addr_of, view;
    rewrite Hkd; simpl; rewrite Hkeyd; simpl; rewrite Hdpriv; simpl;
    rewrite Hhyb, Hsecd; simpl;
    rewrite Hctlen, !to_uint16_small, N.eqb_refl
      by (unfold is_uint16; lia);
    simpl; rewrite Hraw; simpl; rewrite Hload; simpl;
    rewrite Hctd; simpl; rewrite ?N.add_0_l;
    rewrite Hnew; simpl; rewrite Hcopy; simpl;
    rewrite (proj2 (Z.leb_gt _ _) Hr3); simpl;
    rewrite Hset; simpl; rewrite (proj2 (Z.leb_gt _ _) Hr4); simpl;
    rewrite Hctx; simpl; rewrite Hinit6; simpl;
    rewrite (proj2 (Z.leb_gt _ _) Hr6); simpl;
    rewrite Hpeer; simpl; rewrite (proj2 (Z.leb_gt _ _) Hr7); simpl;
    rewrite Hderive; simpl; rewrite Hsecd; simpl; rewrite Hst1; simpl;
    rewrite (proj2 (Z.leb_gt _ _) Hr8); simpl;
    change (N.to_nat 0) with 0%nat; rewrite ?drop_0;
    rewrite Hdecaps; simpl; rewrite Hst2; simpl; reflexivity.
  all: simpl; rewrite Hsecretlen, Hs1sec, Hb2, !length_app.
  all: rewrite <- !(assoc_L (++)).
  all: split; [lia|]. all: split; [done|].
  all: split; [intros Hfits; rewrite size_t_add_exact by done; lia|].
  all: split; do 2 f_equal; f_equal; lia.
Qed.
End Calls.

(** The length query of decapsulation on the toy key, with a null
    ciphertext and a length that matches nothing. *)
Lemma decaps_length_query_witness :
  ∃ s',
    oqs_hyb_kem_decaps (toy_keys no_faults) toy_bound 77
      (toy_state no_faults 0 None None) = Returned 1 s'
    ∧ st_secretlen s' = 3%N
    ∧ st_world s' = 0%N ∧ st_trace s' = []
    ∧ st_ct s' = None ∧ st_ctlen s' = 0%N ∧ st_secret s' = None.
Proof.
  destruct (decaps_length_query (toy_keys no_faults) toy_bound 1%positive
              (toy_key no_faults) (drop 4 toy_priv) (drop 9 toy_priv) 1 1 77
              (toy_state no_faults 0 None None)
              eq_refl eq_refl eq_refl eq_refl)
    as (s' & Hrun & Hlen & _ & Hw & Htr & Hct & Hctlen & Hsec).
  exists s'. repeat split; assumption.
Defined.

(** The size query of encapsulation on the toy key. *)
Lemma encaps_size_query_witness :
  ∃ s',
    oqs_hyb_kem_encaps (toy_keys no_faults) toy_bound
      (toy_state no_faults 0 None (Some (filler 3))) = Returned 1 s'
    ∧ st_ctlen s' = 3%N ∧ st_secretlen s' = 3%N
    ∧ st_world s' = 0%N ∧ st_trace s' = []
    ∧ st_ct s' = None ∧ st_secret s' = Some (filler 3).
Proof.
  destruct (encaps_size_query (toy_keys no_faults) toy_bound 1%positive
              (toy_key no_faults) (drop 4 toy_pub) (drop 9 toy_pub) 1 1
              (toy_state no_faults 0 None (Some (filler 3)))
              eq_refl eq_refl eq_refl (or_introl eq_refl))
    as (s' & Hrun & Hctlen & Hlen & _ & _ & Hw & Htr & Hct & Hsec).
  exists s'. repeat split; assumption.
Defined.

(** C7, as the spec words it, fails on the code: under the toy descriptor
    ([length_ciphertext = 2], [kex_length_public_key = 1]) a bound public
    key whose key-exchange part announces five bytes makes the size query
    report 7, not 3. *)
Lemma size_query_reads_key_counterexample :
  ¬ ∃ s', oqs_hyb_kem_encaps toy_keys_long toy_bound
            (toy_state no_faults 0 None None) = Returned 1 s'
          ∧ st_ctlen s'
            = (length_ciphertext toy_kem + kex_length_public_key toy_info)%N.
Proof.
  intros (s' & Hrun & Hlen).
  vm_compute in Hrun. injection Hrun as <-.
  vm_compute in Hlen. discriminate.
Qed.

(** A failing key-exchange derivation, a failing KEM decapsulation and a
    run in which every step succeeds, on the toy backend. *)
Lemma decaps_no_partial_secret_witness :
  let ct := Some [x06; x06; x08] in
  let broken_kex :=
    {| derive_fails := true; kem_decaps_fails := false;
       pub_encoding_padded := false |} in
  let broken_kem :=
    {| derive_fails := false; kem_decaps_fails := true;
       pub_encoding_padded := false |} in
  let r1 := oqs_hyb_kem_decaps (toy_keys broken_kex) toy_bound 3
              (toy_state broken_kex 9 ct (Some (filler 3))) in
  let r2 := oqs_hyb_kem_decaps (toy_keys broken_kem) toy_bound 3
              (toy_state broken_kem 9 ct (Some (filler 3))) in
  let r3 := oqs_hyb_kem_decaps (toy_keys no_faults) toy_bound 3
              (toy_state no_faults 9 ct (Some (filler 3))) in
  (kex_derivation_failed (st_trace (final r1))
   ∧ ((∃ s', r1 = Returned (-1) s')
      ∨ (∃ s', r1 = Fault s')
        ∧ secret_overrun 2 3 (st_trace (final r1))))
  ∧ (kem_decaps_failed (st_trace (final r2))
     ∧ ((∃ s', r2 = Returned 0 s')
        ∨ (∃ s', r2 = Fault s')
          ∧ secret_overrun 2 3 (st_trace (final r2))))
  ∧ (returned r3 = Some 1
     ∧ ∃ r_derive ss_kex ss_kem,
         In (Ev_EVP_PKEY_derive r_derive ss_kex) (st_trace (final r3))
         ∧ 0 < r_derive
         ∧ In (Ev_OQS_KEM_decaps ct OQS_SUCCESS ss_kem)
             (st_trace (final r3))).
Proof.
  intros ct broken_kex broken_kem r1 r2 r3.
  assert (H1 : kex_derivation_failed (st_trace (final r1))).
  { exists 0, []. split; [vm_compute; tauto | lia]. }
  assert (H2 : kem_decaps_failed (st_trace (final r2))).
  { exists ct, OQS_ERROR, []. split; [vm_compute; tauto | done]. }
  assert (H3 : returned r3 = Some 1) by (vm_compute; reflexivity).
  split; [split; [assumption|]|split; [split; [assumption|]|split;
    [assumption|]]].
  - exact (proj1 (proj2 (decaps_no_partial_secret (toy_keys broken_kex)
                           toy_bound 1%positive (toy_key broken_kex) 3
                           (toy_state broken_kex 9 ct (Some (filler 3)))
                           (filler 3) eq_refl eq_refl eq_refl eq_refl)) H1).
  - exact (proj1 (proj2 (proj2 (decaps_no_partial_secret (toy_keys broken_kem)
                           toy_bound 1%positive (toy_key broken_kem) 3
                           (toy_state broken_kem 9 ct (Some (filler 3)))
                           (filler 3) eq_refl eq_refl eq_refl eq_refl))) H2).
  - destruct (proj2 (proj2 (proj2 (decaps_no_partial_secret
                           (toy_keys no_faults)
                           toy_bound 1%positive (toy_key no_faults) 3
                           (toy_state no_faults 9 ct (Some (filler 3)))
                           (filler 3) eq_refl eq_refl eq_refl eq_refl))) H3)
      as (load & r_copy & pub & r_set & r_init & r_peer & r_derive & ss_kex
          & ctv & ss_kem & buf & Htr & _ & _ & _ & _ & _ & Hpos & _ & _).
    fold r3 in Htr.
    assert (Hctv : ctv = ct).
    { assert (Hlast : last (st_trace (final r3))
                      = Some (Ev_OQS_KEM_decaps ct 0 [x30; x30]))
        by (vm_compute; reflexivity).
      rewrite Htr in Hlast. simpl in Hlast. by simplify_eq. }
    subst ctv.
    exists r_derive, ss_kex, ss_kem. rewrite Htr.
    split; [simpl; tauto|]. split; [exact Hpos|]. simpl. tauto.
Defined.

(** ** The toy backend keeps the contracts *)

Lemma toy_KEM_lengths (f : toy_faults) : @KEM_lengths (toy f).
Proof.
  split; simpl.
  - intros kem [|k pk] w ct ss w' Heq; simplify_eq.
    by rewrite !length_replicate.
  - intros kem [[|r ct]|] [|k sk] w ss w' Heq; simplify_eq.
    destruct (kem_decaps_fails f); simplify_eq.
    by rewrite length_replicate.
Qed.

(** Arithmetic of the toy keys. *)
Lemma to_N_byte_of_N (n : N) : Byte.to_N (byte_of_N n) = (n mod 256)%N.
Proof.
  unfold byte_of_N.
  destruct (Byte.of_N (n mod 256)) as [b|] eqn:Hb; simpl.
  - by apply Byte.to_of_N.
  - apply Byte.of_N_None_iff in Hb.
    pose proof (N.mod_lt n 256). lia.
Qed.

Lemma byte_add_swap (a b c : byte) :
  byte_add a (byte_add b c) = byte_add b (byte_add a c).
Proof.
  unfold byte_add. rewrite !to_N_byte_of_N. unfold byte_of_N.
  do 2 f_equal. rewrite !N.Div0.add_mod_idemp_r. f_equal. lia.
Qed.

Lemma toy_KEM_contract : @KEM_contract (toy no_faults) toy_kem_keypair.
Proof.
  split; [apply toy_KEM_lengths|].
  intros kem pk sk [Hpos (k & pk' & sk' & -> & ->)] w ct ss w' Heq ctv Htake v.
  simpl in Heq. simplify_eq.
  rewrite length_replicate in Htake.
  destruct (N.to_nat (length_ciphertext kem)) as [|n] eqn:Hn; [lia|].
  destruct ctv as [|r ctv]; simpl in Htake; simplify_eq.
  eexists. simpl. reflexivity.
Qed.

Lemma toy_KEX_contract : @KEX_contract (toy no_faults) toy_kex_keypair.
Proof.
  split.
  intros hybkem pub publen priv privlen
    (-> & -> & Hpl & Hsl & a & pub' & priv' & -> & ->) ss epk Hinit.
  unfold kex_initiator in Hinit.
  destruct Hinit as (w0 & peerpk0 & w1 & r2 & peerpk1 & w2 & r3 & peerpk2 & w3
    & kgctx0 & w4 & kgctx1 & w5 & pkey & w6 & ctx0 & w7 & r8 & ctx1 & w8
    & r9 & ctx2 & w9 & r10 & w10 & w11 & pkeylen & enc & w12
    & Hnew & Hcopy & _ & Hset & _ & Hkg & Hkgi & Hgen & Hctx & Hdi & _
    & Hpeer & _ & Hder & Hr10 & Hget & Hepk).
  rewrite Hsl in Hder. simpl in *. simplify_eq. simpl in *. simplify_eq.
  simpl in *. simplify_eq.
  split; [rewrite Hsl; reflexivity|].
  change (N.to_nat 1) with 1%nat in Hepk. cbv [bytes_at] in Hepk.
  simpl in Hepk. simplify_eq.
  intros epkv v0 Htake.
  destruct epkv as [|e epkv]; simpl in Htake; simplify_eq.
  exists v0. unfold kex_responder. rewrite Hpl, Hsl. simpl.
  do 19 eexists.
  split; [by destruct (negb _)|].
  repeat (split; [reflexivity || done|]).
  simpl. split; [|done]. by rewrite byte_add_swap.
Qed.

(** The toy composite key pair is valid under every KEM descriptor with a
    ciphertext. *)
Lemma toy_valid_hybrid_keypair (kem : OQS_KEM) :
  (0 < length_ciphertext kem)%N →
  valid_hybrid_keypair toy_kem_keypair toy_kex_keypair
    (@Build_OQS_HYB_KEM (toy no_faults) kem toy_param toy_info)
    toy_pub toy_priv.
Proof.
  intros Hpos.
  exists (drop 4 toy_pub), 1%N, (drop 9 toy_pub), 1%N,
         (drop 4 toy_priv), 1%N, (drop 9 toy_priv), 1%N.
  split; [reflexivity|]. split; [reflexivity|].
  split; [split; [exact Hpos
                 | by exists x2a, (drop 5 toy_pub), (drop 5 toy_priv)]|].
  split; [|reflexivity].
  repeat (split; [reflexivity|]). by exists x10, [], [].
Qed.

(** A round trip on the toy key: encapsulation with the generator at 5,
    decapsulation in another state of the libraries and into a larger
    buffer. *)
Lemma encaps_decaps_roundtrip_witness :
  let s := toy_state no_faults 5 (Some (filler 3)) (Some (filler 3)) in
  ∃ s1,
    oqs_hyb_kem_encaps (toy_keys no_faults) toy_bound s = Returned 1 s1
    ∧ ∃ sd' ss,
        oqs_hyb_kem_decaps (toy_keys no_faults) toy_bound (st_ctlen s1)
          (toy_state no_faults 99 (st_ct s1) (Some (filler 5)))
        = Returned 1 sd'
        ∧ length ss = 3%nat
        ∧ st_secretlen sd' = st_secretlen s1
        ∧ st_secret s1 = Some (ss ++ drop (length ss) (filler 3))
        ∧ st_secret sd' = Some (ss ++ drop (length ss) (filler 5)).
Proof.
  intros s.
  assert (Hret : returned (oqs_hyb_kem_encaps (toy_keys no_faults) toy_bound s)
                 = Some 1) by (vm_compute; reflexivity).
  destruct (oqs_hyb_kem_encaps (toy_keys no_faults) toy_bound s)
    as [ret s1|s1] eqn:Hrun; [|discriminate].
  injection Hret as ->.
  exists s1. split; [reflexivity|].
  assert (Hfit : (length_ciphertext toy_kem + kex_length_public_key toy_info
                  < 2 ^ 16)%N) by (vm_compute; reflexivity).
  assert (Hroom : (N.to_nat (length_shared_secret toy_kem)
                   + N.to_nat (kex_length_secret toy_info)
                   ≤ length (filler 5))%nat) by (vm_compute; lia).
  destruct (encaps_decaps_roundtrip toy_kem_keypair toy_kex_keypair
              (KEM := toy_KEM_contract) (KEX := toy_KEX_contract)
              (toy_keys no_faults) (toy_keys no_faults) toy_bound toy_bound
              1%positive 1%positive (toy_key no_faults) (toy_key no_faults)
              toy_pub toy_priv s s1
              (toy_state no_faults 99 (st_ct s1) (Some (filler 5)))
              (filler 3) (filler 3) (filler 5)
              eq_refl eq_refl eq_refl eq_refl eq_refl eq_refl eq_refl
              (toy_valid_hybrid_keypair toy_kem eq_refl) Hfit
              eq_refl eq_refl Hrun eq_refl eq_refl Hroom)
    as (sd' & ss & Hd & Hlen & Hsl & _ & Hs1 & Hsd).
  exists sd', ss. repeat split; assumption.
Defined.

(** C1, as the spec words it, fails on the code.  Under a KEM whose
    ciphertext is 65536 bytes long the toy key pair is valid and the toy
    primitives keep their contracts, yet decapsulating the ciphertext of a
    successful encapsulation returns 1 with another secret:
    [oqsx_get_ct_ptr] takes the lengths as [uint16_t], the encoded
    ephemeral public key lands on the first byte of the KEM ciphertext,
    and the KEM decapsulates what is left. *)
Lemma roundtrip_long_ciphertext_counterexample :
  let s := toy_state no_faults 5 (Some (filler 65537)) (Some (filler 3)) in
  let r1 := oqs_hyb_kem_encaps toy_big_keys toy_bound s in
  let sd := toy_state no_faults 99 (st_ct (final r1)) (Some (filler 3)) in
  let r2 := oqs_hyb_kem_decaps toy_big_keys toy_bound (st_ctlen (final r1))
              sd in
  @KEM_contract (toy no_faults) toy_kem_keypair
  ∧ @KEX_contract (toy no_faults) toy_kex_keypair
  ∧ valid_hybrid_keypair toy_kem_keypair toy_kex_keypair toy_big_hybkem
      toy_pub toy_priv
  ∧ returned r1 = Some 1
  ∧ st_ctlen (final r1) = 65537%N
  ∧ st_secret (final r1) = Some [x30; x30; x18]
  ∧ returned r2 = Some 1
  ∧ st_secret (final r2) = Some [x32; x32; x18].
Proof.
  intros s r1 sd r2.
  split; [exact toy_KEM_contract|].
  split; [exact toy_KEX_contract|].
  split; [by apply toy_valid_hybrid_keypair|].
  split; [vm_compute; reflexivity|].
  split; [vm_compute; reflexivity|].
  split; [vm_compute; reflexivity|].
  split; vm_compute; reflexivity.
Qed.

(** Re-encoding that gives two bytes where one is expected. *)
Lemma encaps_reencoding_mismatch_witness :
  let padded :=
    {| derive_fails := false; kem_decaps_fails := false;
       pub_encoding_padded := true |} in
  let s := toy_state padded 5 (Some (filler 3)) (Some (filler 3)) in
  let r := oqs_hyb_kem_encaps (toy_keys padded) toy_bound s in
  reencoded_length (st_trace (final r)) 2
  ∧ ∃ s', r = Returned (-1) s'
          ∧ ∀ i, (2 ≤ i)%nat →
                 (st_ct s' ≫= λ buf, buf !! i) = (st_ct s ≫= λ buf, buf !! i).
Proof.
  intros padded s r.
  assert (Hlen : reencoded_length (st_trace (final r)) 2).
  { exists (Some [x08; x00]). vm_compute. tauto. }
  split; [exact Hlen|].
  refine (encaps_reencoding_mismatch (KL := toy_KEM_lengths padded)
            (toy_keys padded) toy_bound 1%positive (toy_key padded)
            (drop 4 toy_pub) (drop 9 toy_pub) 1 1 s 2 _ _ _ _ Hlen _);
    (reflexivity || discriminate).
Defined.

(** The layout of a run of encapsulation on the toy key and of the
    decapsulation of its ciphertext. *)
Lemma ciphertext_and_secret_layout_witness :
  let s := toy_state no_faults 5 (Some (filler 4)) (Some (filler 4)) in
  let sd := toy_state no_faults 99 (Some [x06; x06; x08]) (Some (filler 4)) in
  (∃ s' ss_kem ss_kex ct_kem ct_kex,
     oqs_hyb_kem_encaps (toy_keys no_faults) toy_bound s = Returned 1 s'
     ∧ length ss_kem = 2%nat ∧ length ct_kem = 2%nat ∧ length ct_kex = 1%nat
     ∧ st_secret s' = Some (ss_kem ++ ss_kex
                            ++ drop (length ss_kem + length ss_kex) (filler 4))
     ∧ st_ct s' = Some (ct_kem ++ ct_kex
                        ++ drop (length ct_kem + length ct_kex) (filler 4)))
  ∧ (∃ sd' ss_kem ss_kex r1,
       oqs_hyb_kem_decaps (toy_keys no_faults) toy_bound 3 sd = Returned 1 sd'
       ∧ length ss_kem = 2%nat
       ∧ st_secret sd' = Some (ss_kem ++ ss_kex
                               ++ drop (length ss_kem + length ss_kex)
                                    (filler 4))
       ∧ In (Ev_OQS_KEM_decaps (Some [x06; x06; x08]) OQS_SUCCESS ss_kem)
           (st_trace sd')
       ∧ In (Ev_EVP_PKEY_set1_encoded_public_key (Some [x08]) 1 r1)
           (st_trace sd')).
Proof.
  intros s sd.
  pose proof (ciphertext_and_secret_layout (KL := toy_KEM_lengths no_faults))
    as [Henc Hdec].
  split.
  - pose (r := oqs_hyb_kem_encaps (toy_keys no_faults) toy_bound s).
    assert (Hrun : oqs_hyb_kem_encaps (toy_keys no_faults) toy_bound s
                   = Returned 1 (final r)) by (vm_compute; reflexivity).
    pose proof (Henc (toy_keys no_faults) toy_bound 1%positive
                  (toy_key no_faults) (drop 4 toy_pub) (drop 9 toy_pub)
                  1%N 1%N s (final r) (filler 4) (filler 4)) as H.
    specialize (H eq_refl).
    specialize (H eq_refl).
    specialize (H eq_refl eq_refl eq_refl eq_refl).
    specialize (H Hrun).
    destruct H
      as (tr & ret & ss_kex & ct_kem & ss_kem & enc & ct_kex & _ & _ & _
          & Hss & Hct & Hkex & Hsecret & Hbuf).
    exists (final r), ss_kem, ss_kex, ct_kem, ct_kex.
    split; [exact Hrun|].
    repeat split; try assumption.
    apply Hbuf. vm_compute. reflexivity.
  - pose (r := oqs_hyb_kem_decaps (toy_keys no_faults) toy_bound 3 sd).
    assert (Hrun : oqs_hyb_kem_decaps (toy_keys no_faults) toy_bound 3 sd
                   = Returned 1 (final r)) by (vm_compute; reflexivity).
    pose proof (Hdec (toy_keys no_faults) toy_bound 1%positive
                  (toy_key no_faults) 3%N sd (final r) [x06; x06; x08]
                  (filler 4)) as H.
    specialize (H eq_refl).
    specialize (H eq_refl).
    specialize (H eq_refl eq_refl eq_refl).
    specialize (H Hrun).
    destruct H as (tr & ret & ss_kex & ctv & ss_kem & Htr & _ & Hss
                   & Hsecret & Hviews).
    destruct Hviews as (-> & tr1 & r1 & tr2 & -> & _);
      [vm_compute; reflexivity | reflexivity |].
    exists (final r), ss_kem, ss_kex, r1.
    split; [exact Hrun|]. split; [exact Hss|]. split; [exact Hsecret|].
    rewrite Htr. split.
    + apply in_or_app. right. simpl. tauto.
    + apply in_or_app. left. apply in_or_app. right.
      apply in_or_app. left. simpl. tauto.
Defined.

(** C4, as the spec words it, fails on the code.  Under a KEM whose
    ciphertext is 65536 bytes long, a successful encapsulation writes the
    encoded ephemeral public key (here the byte 0x08) at offset 0 of [ct],
    over the KEM ciphertext, and leaves offset 65536 as the caller filled
    it: [oqsx_get_ct_ptr] takes the lengths as [uint16_t]. *)
Lemma kex_offset_counterexample :
  let s := toy_state no_faults 5 (Some (filler 65537)) (Some (filler 3)) in
  let r := oqs_hyb_kem_encaps toy_big_keys toy_bound s in
  returned r = Some 1
  ∧ last (st_trace (final r))
    = Some (Ev_EVP_PKEY_get1_encoded_public_key 1 (Some [x08]))
  ∧ (st_ct (final r) ≫= λ buf, bytes_at buf (N.to_nat 65536) 1) ≠ Some [x08]
  ∧ (st_ct (final r) ≫= λ buf, bytes_at buf 0 1) = Some [x08].
Proof.
  intros s r.
  split; [vm_compute; reflexivity|].
  split; [vm_compute; reflexivity|].
  split; [|vm_compute; reflexivity].
  assert (Hat : (st_ct (final r) ≫= λ buf, bytes_at buf (N.to_nat 65536) 1)
                = Some [xee]) by (vm_compute; reflexivity).
  rewrite Hat. discriminate.
Qed.

(** C2 on the code.  The toy ciphertext is three bytes long.  Given a
    ciphertext of 65539 bytes that starts with a valid one and
    [ctlen = 65539], [oqs_hyb_kem_decaps] returns 1 and writes the secret it
    writes for the valid three bytes: the length reaches the check of
    [oqsx_get_ct_ptr] as a [uint16_t], and the result of the check is not
    looked at. *)
Theorem decaps_wrapped_length_accepted :
  let ct := [x06; x06; x08] ++ filler 65536 in
  let s := toy_state no_faults 99 (Some ct) (Some (filler 3)) in
  let r := oqs_hyb_kem_decaps (toy_keys no_faults) toy_bound 65539 s in
  (65539 ≠ length_ciphertext toy_kem + kex_length_public_key toy_info)%N
  ∧ returned r = Some 1
  ∧ st_secret (final r) ≠ st_secret s
  ∧ st_secret (final r)
    = st_secret (final (oqs_hyb_kem_decaps (toy_keys no_faults) toy_bound 3
                          (toy_state no_faults 99 (Some [x06; x06; x08])
                             (Some (filler 3))))).
Proof.
  intros ct s r.
  split; [discriminate|].
  split; [vm_compute; reflexivity|].
  split; [|vm_compute; reflexivity].
  assert (Hsec : st_secret (final r) = Some [x30; x30; x18])
    by (vm_compute; reflexivity).
  rewrite Hsec. discriminate.
Qed.

(** * Further properties of the code *)

(** ** Decoding a composite key *)

Lemma testbit_byte_field (n k i : N) :
  N.testbit (N.shiftl ((n / 2 ^ k) mod 2 ^ 8) k) i
  = (k <=? i)%N && (i <? k + 8)%N && N.testbit n i.
Proof.
  destruct (N.leb_spec k i) as [Hki|Hki]; simpl.
  - rewrite N.shiftl_spec_high' by done.
    destruct (N.ltb_spec i (k + 8)) as [Hi|Hi]; simpl.
    + rewrite N.mod_pow2_bits_low by lia.
      rewrite N.div_pow2_bits. f_equal. lia.
    + apply N.mod_pow2_bits_high. lia.
  - by apply N.shiftl_spec_low.
Qed.

Lemma testbit_above (n k i : N) :
  (n < 2 ^ k)%N → (k ≤ i)%N → N.testbit n i = false.
Proof.
  intros Hn Hi.
  destruct (decide (n = 0%N)) as [->|Hn0]; [apply N.bits_0|].
  apply N.bits_above_log2.
  assert (N.log2 n < k)%N by (apply N.log2_lt_pow2; lia). lia.
Qed.

(** [DECODE_UINT32] reads back a length written most significant byte
    first. *)
Lemma DECODE_UINT32_be32 (n : N) (rest : bytes) :
  (n < 2 ^ 32)%N → DECODE_UINT32 (be32 n ++ rest) = Some n.
Proof.
  intros Hn. unfold be32, DECODE_UINT32. simpl app. cbv iota beta.
  f_equal. rewrite !to_N_byte_of_N.
  change 256%N with (2 ^ 8)%N.
  replace (n mod 2 ^ 8)%N with (N.shiftl ((n / 2 ^ 0) mod 2 ^ 8) 0)
    by (by rewrite N.shiftl_0_r, N.pow_0_r, N.div_1_r).
  apply N.bits_inj. intros i.
  rewrite !N.lor_spec, !testbit_byte_field.
  destruct (N.ltb_spec i 32) as [Hi|Hi].
  - destruct (N.testbit n i); [|by rewrite !andb_false_r].
    rewrite !andb_true_r.
    destruct (N.leb_spec 24 i), (N.leb_spec 16 i), (N.leb_spec 8 i),
      (N.leb_spec 0 i), (N.ltb_spec i (24 + 8)), (N.ltb_spec i (16 + 8)),
      (N.ltb_spec i (8 + 8)), (N.ltb_spec i (0 + 8)); simpl; try done; lia.
  - rewrite (testbit_above n 32 i) by done. by rewrite !andb_false_r.
Qed.

Lemma oqsx_get_pubkey_ptr_Some (buf : bytes) (n1 n2 : N) :
  DECODE_UINT32 buf = Some n1 →
  DECODE_UINT32 (drop (N.to_nat (4 + n1)) buf) = Some n2 →
  oqsx_get_pubkey_ptr (Some buf)
  = Some (drop 4 buf, n1, drop (N.to_nat (4 + n1 + 4)) buf, n2).
Proof.
  intros H1 H2. unfold oqsx_get_pubkey_ptr. simpl.
  rewrite H1. simpl. rewrite H2. done.
Qed.

(** X1.  [oqsx_get_pubkey_ptr] and [oqsx_get_privkey_ptr] undo the
    composite encoding: from the key made of the 4-byte big-endian length
    of [kem], the bytes of [kem], a 4-byte big-endian length [kexlen] and
    the bytes [kex], both return the KEM part as the view that starts
    after the first prefix with the length of [kem], and the key-exchange
    part as the view [kex] with the length [kexlen].  [kexlen] is handed
    on as it was read: nothing compares it with the bytes that are there. *)
Theorem composite_key_decodes (kem kex : bytes) (kexlen : N) :
  (N.of_nat (length kem) < 2 ^ 32)%N →
  (kexlen < 2 ^ 32)%N →
  let key := be32 (N.of_nat (length kem)) ++ kem ++ be32 kexlen ++ kex in
  let decoded :=
    Some (kem ++ be32 kexlen ++ kex, N.of_nat (length kem), kex, kexlen) in
  oqsx_get_pubkey_ptr (Some key) = decoded
  ∧ oqsx_get_privkey_ptr (Some key) = decoded.
Proof.
  intros Hkem Hkex key decoded.
  assert (Hpub : oqsx_get_pubkey_ptr (Some key) = decoded).
  { assert (Hd1 : drop (N.to_nat (4 + N.of_nat (length kem))) key
                  = be32 kexlen ++ kex).
    { unfold key. rewrite (assoc_L (++)). apply drop_app_length'.
      rewrite length_app. simpl. lia. }
    assert (Hd0 : drop 4 key = kem ++ be32 kexlen ++ kex)
      by (unfold key; by apply drop_app_length').
    assert (Hd2 : drop (N.to_nat (4 + N.of_nat (length kem) + 4)) key = kex).
    { unfold key. rewrite !(assoc_L (++)). apply drop_app_length'.
      rewrite !length_app. simpl. lia. }
    rewrite (oqsx_get_pubkey_ptr_Some key (N.of_nat (length kem)) kexlen).
    - by rewrite Hd0, Hd2.
    - by apply DECODE_UINT32_be32.
    - rewrite Hd1. by apply DECODE_UINT32_be32. }
  split; [exact Hpub | exact Hpub].
Qed.

(** The toy public key is the encoding of [0x2a] and [0x13]. *)
Lemma composite_key_decodes_witness :
  oqsx_get_pubkey_ptr (Some toy_pub)
  = Some (drop 4 toy_pub, 1%N, [x13], 1%N)
  ∧ oqsx_get_privkey_ptr (Some toy_pub)
    = Some (drop 4 toy_pub, 1%N, [x13], 1%N).
Proof.
  refine (composite_key_decodes [x2a] [x13] 1 _ _); reflexivity.
Defined.

(** ** Life cycle of a context *)

Section Lifecycle.
Context {B : Backend}.

Lemma with_references_back (key : OQSX_KEY) (r : Z) :
  with_references (references key) (with_references r key) = key.
Proof. by destruct key. Qed.

(** Retaining a live key and releasing it again leaves the store of keys
    as it was. *)
Lemma retain_then_release (keys : gmap positive OQSX_KEY) (k : positive) :
  0 < refcount keys k →
  oqsx_key_free (oqsx_key_up_ref keys k).2 (Some k) = keys.
Proof.
  intros Hlive.
  destruct (refcount_up_ref keys k Hlive) as (key & Hkey & Hpos & ->).
  simpl. unfold oqsx_key_free. rewrite lookup_insert_eq. simpl.
  destruct (Z.leb_spec (references key + 1 - 1) 0) as [Hle|_]; [lia|].
  rewrite insert_insert_eq.
  replace (references key + 1 - 1) with (references key) by lia.
  rewrite with_references_back. by apply insert_id.
Qed.

(** X2.  A context made by [oqs_hyb_kem_newctx] and bound to a live key by
    [oqs_hyb_kem_decapsencaps_init] holds that key, whose count has gone up
    by one; [oqs_hyb_kem_freectx] on it gives that one reference back, and
    the store of keys is as it was before the binding. *)
Theorem bind_then_free_restores (debug : bool)
    (keys : gmap positive OQSX_KEY)
    (provctx : Z) (k : positive) (operation : Z) :
  0 < refcount keys k →
  ∃ pkemctx keys',
    oqs_hyb_kem_decapsencaps_init debug keys
      (Some (oqs_hyb_kem_newctx provctx)) (Some k) operation
    = Some (1, Some pkemctx, keys')
    ∧ ctx_kem pkemctx = Some k
    ∧ refcount keys' k = refcount keys k + 1
    ∧ oqs_hyb_kem_freectx keys' pkemctx = keys.
Proof.
  intros Hlive.
  pose proof (retain_then_release keys k Hlive) as Hback.
  destruct (refcount_up_ref keys k Hlive) as (key & Hkey & Hpos & Hup).
  rewrite init_on_context.
  unfold oqs_hyb_kem_decapsencaps_init, oqs_hyb_kem_newctx,
    oqs_hyb_kem_freectx.
  rewrite Hup in *. simpl in *.
  eexists _, _. split; [reflexivity|]. simpl.
  split; [done|]. split; [|done].
  unfold refcount. rewrite lookup_insert_eq, Hkey. done.
Qed.

(** X3.  Binding a context again to the live key it already holds returns 1
    and changes neither the context nor the store of keys: the reference
    taken first is the one released. *)
Theorem rebind_same_key (debug : bool) (keys : gmap positive OQSX_KEY)
    (pkemctx : PROV_OQSHYBKEM_CTX) (k : positive) (operation : Z) :
  ctx_kem pkemctx = Some k →
  0 < refcount keys k →
  oqs_hyb_kem_decapsencaps_init debug keys (Some pkemctx) (Some k) operation
  = Some (1, Some pkemctx, keys).
Proof.
  intros Hbound Hlive.
  pose proof (retain_then_release keys k Hlive) as Hback.
  destruct (refcount_up_ref keys k Hlive) as (key & Hkey & Hpos & Hup).
  rewrite init_on_context. unfold oqs_hyb_kem_decapsencaps_init.
  rewrite Hup in Hback |- *. cbn [snd] in Hback.
  change (1 =? 0) with false. cbn beta iota.
  rewrite Hbound, Hback.
  destruct pkemctx; simpl in *. by subst.
Qed.

(** X4.  [oqs_hyb_kem_freectx] releases one reference of the key the
    context holds and touches no other key: a context without a key leaves
    the store as it was; the held key loses one reference and is gone from
    the store when that was its last. *)
Theorem freectx_releases_one (keys : gmap positive OQSX_KEY)
    (pkemctx : PROV_OQSHYBKEM_CTX) :
  let keys' := oqs_hyb_kem_freectx keys pkemctx in
  (ctx_kem pkemctx = None → keys' = keys)
  ∧ (∀ k, ctx_kem pkemctx = Some k →
          refcount keys' k = Z.max 0 (refcount keys k - 1)
          ∧ (refcount keys k ≤ 1 → keys' !! k = None))
  ∧ (∀ j, ctx_kem pkemctx ≠ Some j → keys' !! j = keys !! j).
Proof.
  unfold oqs_hyb_kem_freectx. simpl. split; [by intros ->|]. split.
  - intros k ->. unfold refcount, oqsx_key_free.
    destruct (keys !! k) as [key|] eqn:Hkey; [|rewrite Hkey; done].
    destruct (Z.leb_spec (references key - 1) 0).
    + rewrite lookup_delete_eq. split; [lia|done].
    + rewrite lookup_insert_eq. simpl. split; [lia|]. lia.
  - intros j Hne. unfold oqsx_key_free.
    destruct (ctx_kem pkemctx) as [k|]; [|done].
    assert (k ≠ j) by congruence.
    destruct (keys !! k) as [key|]; [|done].
    destruct (references key - 1 <=? 0).
    + by rewrite lookup_delete_ne.
    + by rewrite lookup_insert_ne.
Qed.

(** X5.  A size query of encapsulation on a context that was just made and
    bound reads the key it was bound to: [oqs_hyb_kem_encaps_init] on a new
    context and a live key whose public key decodes returns 1, and
    [oqs_hyb_kem_encaps] with a null [ct] or [secret] then returns 1 with
    the two lengths of that key in [*ctlen] and [*secretlen], calling no
    primitive and changing nothing else. *)
Theorem init_then_size_query (debug : bool) (keys : gmap positive OQSX_KEY)
    (provctx : Z) (k : positive) (key : OQSX_KEY)
    (pubkey_kem pubkey_kex : bytes) (pubkey_kemlen pubkey_kexlen : N)
    (s : state) :
  keys !! k = Some key →
  0 < references key →
  oqsx_get_pubkey_ptr (pubkey key)
    = Some (pubkey_kem, pubkey_kemlen, pubkey_kex, pubkey_kexlen) →
  st_ct s = None ∨ st_secret s = None →
  ∃ pkemctx keys' s',
    oqs_hyb_kem_encaps_init debug keys (Some (oqs_hyb_kem_newctx provctx))
      (Some k)
    = Some (1, Some pkemctx, keys')
    ∧ oqs_hyb_kem_encaps keys' pkemctx s = Returned 1 s'
    ∧ st_ctlen s'
      = size_t_add (length_ciphertext (kem (primitive_hybkem key)))
          pubkey_kexlen
    ∧ st_secretlen s'
      = size_t_add (length_shared_secret (kem (primitive_hybkem key)))
          (kex_length_secret (kex_info (primitive_hybkem key)))
    ∧ st_world s' = st_world s
    ∧ st_trace s' = st_trace s
    ∧ st_ct s' = st_ct s
    ∧ st_secret s' = st_secret s.
Proof.
  intros Hkey Hpos Hpub Hnull.
  unfold oqs_hyb_kem_encaps_init. rewrite init_on_context.
  unfold oqs_hyb_kem_decapsencaps_init, oqs_hyb_kem_newctx, oqsx_key_up_ref.
  rewrite Hkey. apply Z.ltb_lt in Hpos. rewrite Hpos. simpl.
  eexists _, _, _. split; [reflexivity|].
  split.
  - run_unfold. rewrite lookup_insert_eq. simpl. rewrite Hpub. simpl.
    destruct Hnull as [-> | ->]; rewrite ?orb_true_r; reflexivity.
  - done.
Qed.
End Lifecycle.

(** ** What a call returns and what it leaves behind *)

Section Outcomes.
Context {B : Backend}.

(** X6.  [oqs_hyb_kem_encaps] returns 1 or -1 and never 0;
    [oqs_hyb_kem_decaps] returns 1, 0 or -1. *)
Theorem return_values (keys : gmap positive OQSX_KEY)
    (pkemctx : PROV_OQSHYBKEM_CTX) (ctlen : N) (s : state) :
  match returned (oqs_hyb_kem_encaps keys pkemctx s) with
  | Some ret => ret = 1 ∨ ret = -1
  | None => True
  end
  ∧ match returned (oqs_hyb_kem_decaps keys pkemctx ctlen s) with
    | Some ret => ret = 1 ∨ ret = 0 ∨ ret = -1
    | None => True
    end.
Proof.
  split.
  - run_unfold. repeat run_step. all: simpl; auto.
  - run_unfold. repeat run_step. all: simpl; auto.
Qed.

(** X7.  In a call of [oqs_hyb_kem_encaps], a key-exchange derivation or a
    KEM encapsulation that reports failure never leads to the return value
    1: the call returns -1, unless the failing primitive wrote outside the
    buffers.  After a failed derivation the KEM is not called; after a
    failed KEM encapsulation the ephemeral public key is not encoded. *)
Theorem encaps_primitive_failure (keys : gmap positive OQSX_KEY)
    (pkemctx : PROV_OQSHYBKEM_CTX) (s : state) :
  st_trace s = [] →
  let r := oqs_hyb_kem_encaps keys pkemctx s in
  let tr := st_trace (final r) in
  (kex_derivation_failed tr ∨ kem_encaps_failed tr →
   returned r = Some (-1) ∨ returned r = None)
  ∧ (kex_derivation_failed tr →
     ∀ status ct ss, ¬ In (Ev_OQS_KEM_encaps status ct ss) tr)
  ∧ (kem_encaps_failed tr →
     ∀ pkeylen ppub,
       ¬ In (Ev_EVP_PKEY_get1_encoded_public_key pkeylen ppub) tr).
Proof.
  intros Htr r tr. subst tr r.
  unfold kex_derivation_failed, kem_encaps_failed.
  run_unfold. rewrite ?Htr.
  repeat run_step.
  all: rewrite ?Htr; simpl.
  all: Z_bools.
  all: split; [intros [(? & ? & Hin & Hle) | (? & ? & ? & Hin & Hne)]
              |split; [intros (? & ? & Hin & Hle) ? ? ? Hin'
                      |intros (? & ? & ? & Hin & Hne) ? ? Hin']].
  all: try solve [destruct_or?; simplify_eq; eauto; lia || done].
Qed.

(** X8.  With a bound key whose public key decodes, [oqs_hyb_kem_encaps]
    has stored both lengths ([*ctlen] and [*secretlen]) however the call
    ends.  As long as [EVP_PKEY_derive] has not been called, [secret] and
    [ct] are as the caller left them; as long as the KEM has not been
    called, [ct] is. *)
Theorem encaps_outputs (keys : gmap positive OQSX_KEY)
    (pkemctx : PROV_OQSHYBKEM_CTX) (s : state) (k : positive)
    (key : OQSX_KEY) (pubkey_kem pubkey_kex : bytes) (pubkey_kemlen
    pubkey_kexlen : N) :
  ctx_kem pkemctx = Some k →
  keys !! k = Some key →
  oqsx_get_pubkey_ptr (pubkey key)
    = Some (pubkey_kem, pubkey_kemlen, pubkey_kex, pubkey_kexlen) →
  st_trace s = [] →
  let hybkem := primitive_hybkem key in
  let r := oqs_hyb_kem_encaps keys pkemctx s in
  let s' := final r in
  st_ctlen s'
    = size_t_add (length_ciphertext (kem hybkem)) pubkey_kexlen
  ∧ st_secretlen s'
    = size_t_add (length_shared_secret (kem hybkem))
        (kex_length_secret (kex_info hybkem))
  ∧ ((∀ ret derived, ¬ In (Ev_EVP_PKEY_derive ret derived) (st_trace s')) →
     st_secret s' = st_secret s ∧ st_ct s' = st_ct s)
  ∧ ((∀ status ct ss, ¬ In (Ev_OQS_KEM_encaps status ct ss) (st_trace s')) →
     st_ct s' = st_ct s).
Proof.
  intros Hbound Hkey Hpub Htr hybkem r s'. subst s' r hybkem.
  run_unfold. rewrite Hbound. simpl. rewrite Hkey. simpl.
  rewrite Hpub. simpl. rewrite ?Htr.
  repeat run_step.
  all: rewrite ?Htr; simpl.
  all: split; [reflexivity|split; [reflexivity|]].
  all: split; intros Hno; try done.
  all: exfalso; eapply Hno; eauto 20 using in_eq, in_cons.
Qed.

(** X9.  With a bound key whose private key decodes,
    [oqs_hyb_kem_decaps] has stored [*secretlen] however the call ends and
    never writes to the ciphertext or its length.  As long as
    [EVP_PKEY_derive] has not been called, [secret] is as the caller left
    it. *)
Theorem decaps_outputs (keys : gmap positive OQSX_KEY)
    (pkemctx : PROV_OQSHYBKEM_CTX) (ctlen : N) (s : state) (k : positive)
    (key : OQSX_KEY) (privkey_kem privkey_kex : bytes) (privkey_kemlen
    privkey_kexlen : N) :
  ctx_kem pkemctx = Some k →
  keys !! k = Some key →
  oqsx_get_privkey_ptr (privkey key)
    = Some (privkey_kem, privkey_kemlen, privkey_kex, privkey_kexlen) →
  st_trace s = [] →
  let hybkem := primitive_hybkem key in
  let r := oqs_hyb_kem_decaps keys pkemctx ctlen s in
  let s' := final r in
  st_secretlen s'
    = size_t_add (length_shared_secret (kem hybkem))
        (kex_length_secret (kex_info hybkem))
  ∧ st_ct s' = st_ct s
  ∧ st_ctlen s' = st_ctlen s
  ∧ ((∀ ret derived, ¬ In (Ev_EVP_PKEY_derive ret derived) (st_trace s')) →
     st_secret s' = st_secret s).
Proof.
  intros Hbound Hkey Hpriv Htr hybkem r s'. subst s' r hybkem.
  run_unfold. rewrite Hbound. simpl. rewrite Hkey. simpl.
  rewrite Hpriv. simpl. rewrite ?Htr.
  repeat run_step.
  all: rewrite ?Htr; simpl.
  all: split; [reflexivity|split; [reflexivity|split; [reflexivity|]]].
  all: intros Hno; try done.
  all: exfalso; eapply Hno; eauto 20 using in_eq, in_cons.
Qed.

(** X10.  When the two part lengths, as the 16-bit values
    [oqsx_get_ct_ptr] receives, do not add up to the 16-bit value of the
    total [oqs_hyb_kem_encaps] has just stored, [oqsx_get_ct_ptr] fails and
    leaves [ct1] and [ct2] null, and the call goes on: it returns 1 only as
    a size query, and once the KEM encapsulation has been called with the
    null [ct1] the call does not return in the model (a write through a
    null pointer), with [ct] as the caller left it. *)
Theorem encaps_split_refused (keys : gmap positive OQSX_KEY)
    (pkemctx : PROV_OQSHYBKEM_CTX) (s : state) (k : positive)
    (key : OQSX_KEY) (pubkey_kem pubkey_kex : bytes) (pubkey_kemlen
    pubkey_kexlen : N) :
  ctx_kem pkemctx = Some k →
  keys !! k = Some key →
  oqsx_get_pubkey_ptr (pubkey key)
    = Some (pubkey_kem, pubkey_kemlen, pubkey_kex, pubkey_kexlen) →
  st_trace s = [] →
  let kemCtLen := length_ciphertext (kem (primitive_hybkem key)) in
  (to_uint16 (size_t_add kemCtLen pubkey_kexlen)
   ≠ to_uint16 kemCtLen + to_uint16 pubkey_kexlen)%N →
  let r := oqs_hyb_kem_encaps keys pkemctx s in
  (returned r = Some 1 → st_ct s = None ∨ st_secret s = None)
  ∧ (∀ status ct ss,
       In (Ev_OQS_KEM_encaps status ct ss) (st_trace (final r)) →
       returned r = None ∧ st_ct (final r) = st_ct s).
Proof.
  intros Hbound Hkey Hpub Htr kemCtLen Hne r. subst r kemCtLen.
  assert (Hsplit : ∀ ct,
    oqsx_get_ct_ptr ct
      (to_uint16 (size_t_add
                    (length_ciphertext (kem (primitive_hybkem key)))
                    pubkey_kexlen))
      None (to_uint16 (length_ciphertext (kem (primitive_hybkem key))))
      None (to_uint16 pubkey_kexlen)
    = (0, None, None)).
  { intros ct. unfold oqsx_get_ct_ptr.
    apply N.eqb_neq in Hne. by rewrite Hne. }
  run_unfold.
  rewrite Hbound. simpl. rewrite Hkey. simpl.
  rewrite Hpub. simpl. rewrite ?Htr.
  repeat run_step.
  all: rewrite ?Htr in *; simpl in *.
  all: try (rewrite Hsplit in *; simplify_eq).
  all: split; [intros ?; simplify_eq; auto|intros ? ? ? Hin].
  all: try solve [destruct_or?; simplify_eq; done].
  destruct (st_ct s), (st_secret s); simpl in *; auto; done.
Qed.

(** X11.  When [ct] is null, or [ctlen] as a 16-bit value is not the sum
    of the two part lengths as 16-bit values, [oqsx_get_ct_ptr] fails in
    [oqs_hyb_kem_decaps] and the call goes on with [ct1] and [ct2] null:
    the peer key is set from a null pointer (with the descriptor's
    length), the KEM decapsulation, if reached, is given a null
    ciphertext, and the call returns 1 only as a size query or when
    [EVP_PKEY_set1_encoded_public_key] accepted the null pointer. *)
Theorem decaps_split_refused (keys : gmap positive OQSX_KEY)
    (pkemctx : PROV_OQSHYBKEM_CTX) (ctlen : N) (s : state) (k : positive)
    (key : OQSX_KEY) :
  ctx_kem pkemctx = Some k →
  keys !! k = Some key →
  st_trace s = [] →
  let hybkem := primitive_hybkem key in
  let kexPubLen := kex_length_public_key (kex_info hybkem) in
  st_ct s = None
  ∨ (to_uint16 ctlen
     ≠ to_uint16 (length_ciphertext (kem hybkem)) + to_uint16 kexPubLen)%N →
  let r := oqs_hyb_kem_decaps keys pkemctx ctlen s in
  let tr := st_trace (final r) in
  (∀ pub publen ret,
     In (Ev_EVP_PKEY_set1_encoded_public_key pub publen ret) tr →
     pub = None ∧ publen = kexPubLen)
  ∧ (∀ ct status ss, In (Ev_OQS_KEM_decaps ct status ss) tr → ct = None)
  ∧ (returned r = Some 1 →
     st_secret s = None
     ∨ ∃ ret, In (Ev_EVP_PKEY_set1_encoded_public_key None kexPubLen ret) tr
              ∧ 0 < ret).
Proof.
  intros Hbound Hkey Htr hybkem kexPubLen Hbad r tr.
  subst tr r kexPubLen hybkem.
  assert (Hsplit :
    oqsx_get_ct_ptr (addr_of (st_ct s)) (to_uint16 ctlen)
      None (to_uint16 (length_ciphertext (kem (primitive_hybkem key))))
      None (to_uint16 (kex_length_public_key (kex_info (primitive_hybkem key))))
    = (0, None, None)).
  { unfold oqsx_get_ct_ptr.
    destruct Hbad as [Hnull|Hne].
    - rewrite Hnull. simpl. by case_match.
    - apply N.eqb_neq in Hne. by rewrite Hne. }
  run_unfold.
  rewrite Hbound. simpl. rewrite Hkey. simpl.
  rewrite ?Htr.
  repeat run_step.
  all: rewrite ?Htr in *; simpl in *.
  all: Z_bools.
  all: try (rewrite Hsplit in *; simplify_eq).
  all: split; [intros ? ? ? Hin|split; [intros ? ? ? Hin|intros ?]].
  all: try solve [destruct_or?; simplify_eq; done].
  all: simplify_eq; auto.
  all: try solve [right; eexists; split; [eauto 20 using in_eq, in_cons|lia]].
  left. by destruct (st_secret s).
Qed.

(** X12.  In its compute phase [oqs_hyb_kem_decaps] first loads the
    key-exchange private key, with [EVP_PKEY_new_raw_private_key] when the
    descriptor's [raw_key_support] is not 0 and with [d2i_AutoPrivateKey]
    otherwise, and with no other loading call after it.  When the loading
    fails no other primitive is called and [secret] is as the caller left
    it, but the call does not return -1: it jumps to [err:], where
    [EVP_PKEY_CTX_free] is given the local [ctx] that was never assigned,
    which is undefined behaviour. *)
Theorem decaps_private_key_loader (keys : gmap positive OQSX_KEY)
    (pkemctx : PROV_OQSHYBKEM_CTX) (ctlen : N) (s : state) (k : positive)
    (key : OQSX_KEY) (privkey_kem privkey_kex : bytes) (privkey_kemlen
    privkey_kexlen : N) (secret : bytes) :
  ctx_kem pkemctx = Some k →
  keys !! k = Some key →
  oqsx_get_privkey_ptr (privkey key)
    = Some (privkey_kem, privkey_kemlen, privkey_kex, privkey_kexlen) →
  st_trace s = [] →
  st_secret s = Some secret →
  let r := oqs_hyb_kem_decaps keys pkemctx ctlen s in
  let tr := st_trace (final r) in
  let raw := negb (raw_key_support (kex_info (primitive_hybkem key)) =? 0) in
  ∃ ok,
    head tr = Some (if raw then Ev_EVP_PKEY_new_raw_private_key ok
                    else Ev_d2i_AutoPrivateKey ok)
    ∧ (∀ ok', In (Ev_EVP_PKEY_new_raw_private_key ok') (tail tr) → False)
    ∧ (∀ ok', In (Ev_d2i_AutoPrivateKey ok') (tail tr) → False)
    ∧ (ok = false →
       returned r = None ∧ tail tr = []
       ∧ st_secret (final r) = Some secret
       ∧ st_ct (final r) = st_ct s).
Proof.
  intros Hbound Hkey Hpriv Htr Hsec r tr raw. subst raw tr r.
  run_unfold.
  rewrite Hbound. simpl. rewrite Hkey. simpl.
  rewrite Hpriv. simpl. rewrite ?Hsec, ?Htr. simpl.
  destruct (negb _) eqn:Hraw.
  all: repeat run_step.
  all: rewrite ?Htr, ?Hsec in *; simpl in *.
  all: eexists; split; [reflexivity|].
  all: split; [intros ? Hin; destruct_or?; simplify_eq; done|].
  all: split; [intros ? Hin; destruct_or?; simplify_eq; done|].
  all: simpl; intros ?; simplify_eq; done.
Qed.

(** X13.  Every way of [oqs_hyb_kem_decaps] to [err:] that is taken
    before [EVP_PKEY_CTX_new] was called frees a pointer that was never
    set, which is undefined behaviour.  On a context without a key the
    guard jumps over the declarations of [ctx], [pkey] and [peerpkey]:
    nothing was done and nothing is returned.  A run that has called a
    primitive but not [EVP_PKEY_CTX_new] has stopped on the failure of the
    loading of the private key, of [EVP_PKEY_new], of
    [EVP_PKEY_copy_parameters] or of [EVP_PKEY_set1_encoded_public_key],
    with [ctx] unassigned: it does not return, and the buffers are as the
    caller left them.  A run that returns has either answered the size
    query or called [EVP_PKEY_CTX_new]. *)
Theorem decaps_ctx_unset_at_err (keys : gmap positive OQSX_KEY)
    (pkemctx : PROV_OQSHYBKEM_CTX) (ctlen : N) (s : state) :
  st_trace s = [] →
  let r := oqs_hyb_kem_decaps keys pkemctx ctlen s in
  let tr := st_trace (final r) in
  (ctx_kem pkemctx = None → r = Fault s)
  ∧ (tr ≠ [] → (∀ ok, ¬ In (Ev_EVP_PKEY_CTX_new ok) tr) →
     returned r = None
     ∧ st_secret (final r) = st_secret s
     ∧ st_ct (final r) = st_ct s
     ∧ ∃ e, last tr = Some e
            ∧ match e with
              | Ev_EVP_PKEY_new_raw_private_key ok
              | Ev_d2i_AutoPrivateKey ok
              | Ev_EVP_PKEY_new ok => ok = false
              | Ev_EVP_PKEY_copy_parameters ret
              | Ev_EVP_PKEY_set1_encoded_public_key _ _ ret => ret ≤ 0
              | _ => False
              end)
  ∧ (∀ ret, returned r = Some ret →
            (ret = 1 ∧ st_secret s = None ∧ tr = [])
            ∨ ∃ ok, In (Ev_EVP_PKEY_CTX_new ok) tr).
Proof.
  intros Htr r tr. subst tr r. split; [|split].
  - intros Hnone. run_unfold. by rewrite Hnone.
  - run_unfold.
    repeat run_step.
    all: rewrite ?Htr; simpl.
    all: intros Hne Hno; try done.
    all: try solve [exfalso; eapply Hno; eauto 20 using in_eq, in_cons].
    all: Z_bools.
    all: repeat split; try done.
    all: eexists; split; [reflexivity|]; simpl; done.
  - intros ret.
    run_unfold.
    repeat run_step.
    all: rewrite ?Htr; simpl.
    all: intros ?; simplify_eq.
    all: try solve [right; eexists; eauto 20 using in_eq, in_cons].
    left. by destruct (st_secret s).
Qed.
End Outcomes.

(** ** Writes stay inside the buffers *)

Ltac bounds :=
  repeat match goal with
  | H : store _ _ _ = None |- _ => apply store_None in H
  | H : store _ _ _ = Some _ |- _ => apply store_length in H
  | H : EVP_PKEY_derive _ _ _ = _ |- _ => apply derive_bounded in H
  | H : OQS_KEM_encaps _ _ _ = _ |- _ => apply kem_encaps_bounded in H as [? ?]
  | H : OQS_KEM_decaps _ _ _ _ = _ |- _ => apply kem_decaps_bounded in H
  | H : EVP_PKEY_get1_encoded_public_key _ _ = (_, Some _, _) |- _ =>
      apply encoded_key_whole in H
  | H : bytes_at _ _ _ = Some _ |- _ => apply bytes_at_length in H
  | H : bytes_at _ _ _ = None |- _ =>
      unfold bytes_at in H; case_decide; [discriminate H|]
  end.

Section Bounds.
Context {B : Backend} {WB : Writes_bounded}.

(** X14.  When the primitives keep to the room they are given, the two
    ciphertext lengths fit 16 bits together, and [ct] and [secret] are at
    least as long as the lengths the size query reports,
    [oqs_hyb_kem_encaps] with a bound key whose public key decodes always
    returns in the model: no write of the call falls outside [ct] or
    [secret] and none goes through a null pointer. *)
Theorem encaps_stays_in_bounds (keys : gmap positive OQSX_KEY)
    (pkemctx : PROV_OQSHYBKEM_CTX) (s : state) (k : positive)
    (key : OQSX_KEY) (pubkey_kem pubkey_kex : bytes) (pubkey_kemlen
    pubkey_kexlen : N) (ct secret : bytes) :
  ctx_kem pkemctx = Some k →
  keys !! k = Some key →
  oqsx_get_pubkey_ptr (pubkey key)
    = Some (pubkey_kem, pubkey_kemlen, pubkey_kex, pubkey_kexlen) →
  st_ct s = Some ct →
  st_secret s = Some secret →
  let hybkem := primitive_hybkem key in
  (length_ciphertext (kem hybkem) + pubkey_kexlen < 2 ^ 16)%N →
  (N.to_nat (length_ciphertext (kem hybkem) + pubkey_kexlen)
   ≤ length ct)%nat →
  (N.to_nat (length_shared_secret (kem hybkem)
             + kex_length_secret (kex_info hybkem))
   ≤ length secret)%nat →
  ∃ ret s', oqs_hyb_kem_encaps keys pkemctx s = Returned ret s'.
Proof.
  intros Hbound Hkey Hpub Hct Hsec hybkem Hfit Hroom Hsroom. subst hybkem.
  run_unfold. unfold oqsx_get_ct_ptr, addr_of.
  rewrite Hbound. simpl. rewrite Hkey. simpl.
  rewrite Hpub. simpl. rewrite ?Hct, ?Hsec. simpl.
  rewrite (to_uint16_small (length_ciphertext _)),
    (to_uint16_small pubkey_kexlen) by (unfold is_uint16; lia).
  rewrite (size_t_add_exact (length_ciphertext _))
    by (apply uint16_fits_size_t; lia).
  rewrite to_uint16_small by (unfold is_uint16; lia).
  rewrite N.eqb_refl. simpl.
  repeat run_step.
  all: try solve [eauto].
  all: exfalso.
  all: rewrite ?Hct, ?Hsec in *; simpl in *.
  all: Z_bools; N_bools.
  all: rewrite ?N.add_0_l in *.
  all: repeat match goal with
         | o : option bytes |- _ => destruct o; simpl in *; try done
         end.
  all: bounds; lia.
Qed.

(** X15.  When the primitives keep to the room they are given and
    [secret] is at least as long as the length the size query reports,
    no write of [oqs_hyb_kem_decaps] with a bound key whose private key
    decodes falls outside [secret], whatever the ciphertext and [ctlen]:
    the call returns, or it has stopped before it called
    [EVP_PKEY_CTX_new], where [err:] frees the unassigned [ctx], with
    [secret] as the caller left it. *)
Theorem decaps_stays_in_bounds (keys : gmap positive OQSX_KEY)
    (pkemctx : PROV_OQSHYBKEM_CTX) (ctlen : N) (s : state) (k : positive)
    (key : OQSX_KEY) (privkey_kem privkey_kex : bytes) (privkey_kemlen
    privkey_kexlen : N) (secret : bytes) :
  ctx_kem pkemctx = Some k →
  keys !! k = Some key →
  oqsx_get_privkey_ptr (privkey key)
    = Some (privkey_kem, privkey_kemlen, privkey_kex, privkey_kexlen) →
  st_trace s = [] →
  st_secret s = Some secret →
  let hybkem := primitive_hybkem key in
  (N.to_nat (length_shared_secret (kem hybkem)
             + kex_length_secret (kex_info hybkem))
   ≤ length secret)%nat →
  let r := oqs_hyb_kem_decaps keys pkemctx ctlen s in
  (∃ ret s', r = Returned ret s'
             ∧ ∃ buf, st_secret s' = Some buf ∧ length buf = length secret)
  ∨ (∃ s', r = Fault s'
           ∧ (∀ ok, ¬ In (Ev_EVP_PKEY_CTX_new ok) (st_trace s'))
           ∧ st_secret s' = Some secret).
Proof.
  intros Hbound Hkey Hpriv Htr Hsec hybkem Hsroom r. subst r hybkem.
  run_unfold.
  rewrite Hbound. simpl. rewrite Hkey. simpl.
  rewrite Hpriv. simpl. rewrite ?Hsec, ?Htr. simpl.
  repeat run_step.
  all: rewrite ?Hsec, ?Htr in *; simpl in *.
  all: try solve [right; eexists; split; [reflexivity|]; simpl;
                  rewrite ?Htr; split; [|done];
                  intros ? Hin; simpl in Hin; destruct_or?; simplify_eq].
  all: try solve [left; eexists _, _; split; [reflexivity|]; simpl;
                  eexists; split; [eassumption || reflexivity|];
                  bounds; lia].
  all: exfalso; bounds; lia.
Qed.
End Bounds.

(** ** The properties on the toy backend *)

Lemma toy_Writes_bounded (f : toy_faults) : @Writes_bounded (toy f).
Proof.
  split; simpl.
  - intros ctx keylen w ret key w' Heq.
    repeat case_match; simplify_eq; simpl; N_bools; lia.
  - intros kem [|k pk] w status ct ss w' Heq; simplify_eq; simpl; [lia|].
    by rewrite !length_replicate.
  - intros kem ct sk w status ss w' Heq.
    repeat case_match; simplify_eq; simpl; rewrite ?length_replicate; lia.
  - intros pkey w pkeylen enc w' Heq.
    repeat case_match; simplify_eq; simpl; lia.
Qed.

(** Binding the toy key to a new context, then asking for the sizes. *)
Lemma init_then_size_query_witness :
  ∃ pkemctx keys' s',
    oqs_hyb_kem_encaps_init true (toy_keys no_faults)
      (Some (oqs_hyb_kem_newctx 0)) (Some 1%positive)
    = Some (1, Some pkemctx, keys')
    ∧ oqs_hyb_kem_encaps keys' pkemctx (toy_state no_faults 0 None None)
      = Returned 1 s'
    ∧ st_ctlen s' = 3%N ∧ st_secretlen s' = 3%N
    ∧ st_world s' = 0%N ∧ st_trace s' = []
    ∧ st_ct s' = None ∧ st_secret s' = None.
Proof.
  refine (init_then_size_query true (toy_keys no_faults) 0 1%positive
            (toy_key no_faults) (drop 4 toy_pub) (drop 9 toy_pub) 1 1
            (toy_state no_faults 0 None None) _ _ _ _);
    [reflexivity | reflexivity | reflexivity | by left].
Defined.

(** Binding the toy key to a new context and freeing the context. *)
Lemma bind_then_free_restores_witness :
  ∃ pkemctx keys',
    oqs_hyb_kem_decapsencaps_init true (toy_keys no_faults)
      (Some (oqs_hyb_kem_newctx 0)) (Some 1%positive)
      EVP_PKEY_OP_ENCAPSULATE = Some (1, Some pkemctx, keys')
    ∧ ctx_kem pkemctx = Some 1%positive
    ∧ refcount keys' 1 = refcount (toy_keys no_faults) 1 + 1
    ∧ oqs_hyb_kem_freectx keys' pkemctx = toy_keys no_faults.
Proof.
  refine (bind_then_free_restores true (toy_keys no_faults) 0 1%positive
            EVP_PKEY_OP_ENCAPSULATE _).
  reflexivity.
Defined.

(** Binding the toy key to the context that holds it. *)
Lemma rebind_same_key_witness :
  oqs_hyb_kem_decapsencaps_init false (toy_keys no_faults) (Some toy_bound)
    (Some 1%positive) EVP_PKEY_OP_DECAPSULATE
  = Some (1, Some toy_bound, toy_keys no_faults).
Proof.
  refine (rebind_same_key false (toy_keys no_faults) toy_bound 1%positive
            EVP_PKEY_OP_DECAPSULATE _ _); reflexivity.
Defined.

(** An encapsulation whose key-exchange derivation fails. *)
Lemma encaps_primitive_failure_witness :
  let s := toy_state toy_derive_fails 5 (Some (filler 3)) (Some (filler 3)) in
  let r := oqs_hyb_kem_encaps (toy_keys toy_derive_fails) toy_bound s in
  kex_derivation_failed (st_trace (final r))
  ∧ (returned r = Some (-1) ∨ returned r = None)
  ∧ ∀ status ct ss,
      ¬ In (Ev_OQS_KEM_encaps status ct ss) (st_trace (final r)).
Proof.
  intros s r.
  assert (Hfail : kex_derivation_failed (st_trace (final r))).
  { exists 0, []. split; [vm_compute; tauto|lia]. }
  pose proof (encaps_primitive_failure (toy_keys toy_derive_fails) toy_bound
                s eq_refl) as (Hret & Hkem & _).
  split; [exact Hfail|].
  split; [apply Hret; by left|by apply Hkem].
Defined.

(** The outputs of an encapsulation on the toy key. *)
Lemma encaps_outputs_witness :
  let s := toy_state no_faults 5 (Some (filler 3)) (Some (filler 3)) in
  let s' := final (oqs_hyb_kem_encaps (toy_keys no_faults) toy_bound s) in
  st_ctlen s' = 3%N ∧ st_secretlen s' = 3%N
  ∧ ((∀ ret derived, ¬ In (Ev_EVP_PKEY_derive ret derived) (st_trace s')) →
     st_secret s' = st_secret s ∧ st_ct s' = st_ct s)
  ∧ ((∀ status ct ss, ¬ In (Ev_OQS_KEM_encaps status ct ss) (st_trace s')) →
     st_ct s' = st_ct s).
Proof.
  refine (encaps_outputs (toy_keys no_faults) toy_bound
            (toy_state no_faults 5 (Some (filler 3)) (Some (filler 3)))
            1%positive (toy_key no_faults) (drop 4 toy_pub) (drop 9 toy_pub)
            1 1 _ _ _ _); reflexivity.
Defined.

(** The outputs of a decapsulation on the toy key. *)
Lemma decaps_outputs_witness :
  let s := toy_state no_faults 99 (Some [x06; x06; x08]) (Some (filler 3)) in
  let s' := final (oqs_hyb_kem_decaps (toy_keys no_faults) toy_bound 3 s) in
  st_secretlen s' = 3%N
  ∧ st_ct s' = st_ct s
  ∧ st_ctlen s' = st_ctlen s
  ∧ ((∀ ret derived, ¬ In (Ev_EVP_PKEY_derive ret derived) (st_trace s')) →
     st_secret s' = st_secret s).
Proof.
  refine (decaps_outputs (toy_keys no_faults) toy_bound 3
            (toy_state no_faults 99 (Some [x06; x06; x08]) (Some (filler 3)))
            1%positive (toy_key no_faults) (drop 4 toy_priv) (drop 9 toy_priv)
            1 1 _ _ _ _); reflexivity.
Defined.

(** Under a KEM ciphertext of 65535 bytes and a key-exchange key of one
    byte, an encapsulation with both buffers does not return 1. *)
Lemma encaps_split_refused_witness :
  let s := toy_state no_faults 5 (Some (filler 65536)) (Some (filler 3)) in
  returned (oqs_hyb_kem_encaps toy_edge_keys toy_bound s) ≠ Some 1.
Proof.
  intros s Hret.
  assert (Hne : (to_uint16 (size_t_add 65535 1)
                 ≠ to_uint16 65535 + to_uint16 1)%N)
    by (vm_compute; discriminate).
  destruct (proj1 (encaps_split_refused toy_edge_keys toy_bound s 1%positive
                     (@Build_OQSX_KEY (toy no_faults) 1
                        (@Build_OQS_HYB_KEM (toy no_faults) toy_edge_kem
                           toy_param toy_info)
                        (Some toy_pub) (Some toy_priv))
                     (drop 4 toy_pub) (drop 9 toy_pub) 1 1
                     eq_refl eq_refl eq_refl eq_refl Hne) Hret);
    discriminate.
Defined.

(** A ciphertext of two bytes, where three are expected, is not
    decapsulated. *)
Lemma decaps_split_refused_witness :
  let s := toy_state no_faults 99 (Some [x06; x06]) (Some (filler 3)) in
  returned (oqs_hyb_kem_decaps (toy_keys no_faults) toy_bound 2 s) ≠ Some 1.
Proof.
  intros s Hret.
  assert (Hne : st_ct s = None
                ∨ (to_uint16 2 ≠ to_uint16 2 + to_uint16 1)%N)
    by (right; vm_compute; discriminate).
  destruct (proj2 (proj2 (decaps_split_refused (toy_keys no_faults) toy_bound
                            2 s 1%positive (toy_key no_faults)
                            eq_refl eq_refl eq_refl Hne)) Hret)
    as [Hnull|(ret & Hin & Hpos)]; [discriminate|].
  vm_compute in Hin. destruct_or?; simplify_eq; lia.
Defined.

(** An encapsulation into buffers of three bytes on the toy key. *)
Lemma encaps_stays_in_bounds_witness :
  ∃ ret s',
    oqs_hyb_kem_encaps (toy_keys no_faults) toy_bound
      (toy_state no_faults 5 (Some (filler 3)) (Some (filler 3)))
    = Returned ret s'.
Proof.
  refine (encaps_stays_in_bounds (WB := toy_Writes_bounded no_faults)
            (toy_keys no_faults) toy_bound
            (toy_state no_faults 5 (Some (filler 3)) (Some (filler 3)))
            1%positive (toy_key no_faults) (drop 4 toy_pub) (drop 9 toy_pub)
            1 1 (filler 3) (filler 3) _ _ _ _ _ _ _ _);
    [reflexivity..| |]; vm_compute; lia.
Defined.

(** A decapsulation into a secret of three bytes on the toy key returns;
    the decapsulation of a ciphertext of two bytes, where three are
    expected, stops on [EVP_PKEY_set1_encoded_public_key]. *)
Lemma decaps_stays_in_bounds_witness :
  (∃ s',
     oqs_hyb_kem_decaps (toy_keys no_faults) toy_bound 3
       (toy_state no_faults 99 (Some [x06; x06; x08]) (Some (filler 3)))
     = Returned 1 s')
  ∧ (∃ s',
       oqs_hyb_kem_decaps (toy_keys no_faults) toy_bound 2
         (toy_state no_faults 99 (Some [x06; x06]) (Some (filler 3)))
       = Fault s'
       ∧ last (st_trace s')
         = Some (Ev_EVP_PKEY_set1_encoded_public_key None 1 0)
       ∧ st_secret s' = Some (filler 3)).
Proof.
  assert (Hroom : (N.to_nat (length_shared_secret toy_kem
                             + kex_length_secret toy_info)
                   ≤ length (filler 3))%nat) by (vm_compute; lia).
  split.
  - destruct (decaps_stays_in_bounds (WB := toy_Writes_bounded no_faults)
                (toy_keys no_faults) toy_bound 3
                (toy_state no_faults 99 (Some [x06; x06; x08])
                   (Some (filler 3)))
                1%positive (toy_key no_faults) (drop 4 toy_priv)
                (drop 9 toy_priv) 1 1 (filler 3)
                eq_refl eq_refl eq_refl eq_refl eq_refl Hroom)
      as [(ret & s' & Hrun & _)|(s' & Hrun & _)].
    + exists s'. rewrite Hrun. f_equal.
      assert (Hr : returned
                     (oqs_hyb_kem_decaps (toy_keys no_faults) toy_bound 3
                        (toy_state no_faults 99 (Some [x06; x06; x08])
                           (Some (filler 3)))) = Some 1)
        by (vm_compute; reflexivity).
      rewrite Hrun in Hr. simpl in Hr. congruence.
    + apply (f_equal returned) in Hrun. vm_compute in Hrun. discriminate.
  - destruct (decaps_stays_in_bounds (WB := toy_Writes_bounded no_faults)
                (toy_keys no_faults) toy_bound 2
                (toy_state no_faults 99 (Some [x06; x06]) (Some (filler 3)))
                1%positive (toy_key no_faults) (drop 4 toy_priv)
                (drop 9 toy_priv) 1 1 (filler 3)
                eq_refl eq_refl eq_refl eq_refl eq_refl Hroom)
      as [(ret & s' & Hrun & _)|(s' & Hrun & _ & Hsec)].
    + apply (f_equal returned) in Hrun. vm_compute in Hrun. discriminate.
    + exists s'. split; [exact Hrun|]. split; [|exact Hsec].
      assert (Hl : last (st_trace (final
                     (oqs_hyb_kem_decaps (toy_keys no_faults) toy_bound 2
                        (toy_state no_faults 99 (Some [x06; x06])
                           (Some (filler 3))))))
                   = Some (Ev_EVP_PKEY_set1_encoded_public_key None 1 0))
        by (vm_compute; reflexivity).
      rewrite Hrun in Hl. exact Hl.
Defined.

(** The toy descriptor supports raw keys: the private key is loaded with
    [EVP_PKEY_new_raw_private_key] and never with [d2i_AutoPrivateKey];
    a private key of no bytes fails to load, and the call does not
    return. *)
Lemma decaps_private_key_loader_witness :
  let s := toy_state no_faults 99 (Some [x06; x06; x08]) (Some (filler 3)) in
  let tr :=
    st_trace (final (oqs_hyb_kem_decaps (toy_keys no_faults) toy_bound 3 s)) in
  let short : gmap positive (@OQSX_KEY (toy no_faults)) :=
    {[ 1%positive :=
         @Build_OQSX_KEY (toy no_faults) 1 (toy_hybkem no_faults)
           (Some toy_pub) (Some (take 9 toy_priv)) ]} in
  let r := oqs_hyb_kem_decaps short toy_bound 3 s in
  (head tr = Some (Ev_EVP_PKEY_new_raw_private_key true)
   ∧ ∀ ok, ¬ In (Ev_d2i_AutoPrivateKey ok) tr)
  ∧ (st_trace (final r) = [Ev_EVP_PKEY_new_raw_private_key false]
     ∧ returned r = None
     ∧ st_secret (final r) = Some (filler 3)).
Proof.
  intros s tr short r. split.
  - destruct (decaps_private_key_loader (toy_keys no_faults) toy_bound 3 s
                1%positive (toy_key no_faults) (drop 4 toy_priv)
                (drop 9 toy_priv) 1 1 (filler 3)
                eq_refl eq_refl eq_refl eq_refl eq_refl)
      as (ok & Hhead & _ & Hd2i & _).
    split; [vm_compute; reflexivity|].
    intros ok' Hin. apply (Hd2i ok').
    fold tr in Hhead |- *.
    destruct tr as [|e tr']; [done|].
    destruct Hin as [->|Hin]; [|exact Hin].
    simpl in Hhead. vm_compute in Hhead. discriminate.
  - destruct (decaps_private_key_loader short toy_bound 3 s
                1%positive
                (@Build_OQSX_KEY (toy no_faults) 1 (toy_hybkem no_faults)
                   (Some toy_pub) (Some (take 9 toy_priv)))
                (drop 4 (take 9 toy_priv)) [] 1 1 (filler 3)
                eq_refl eq_refl eq_refl eq_refl eq_refl)
      as (ok & Hhead & _ & _ & Hfail).
    fold r in Hhead, Hfail.
    assert (Hok : ok = false).
    { assert (Hh : head (st_trace (final r))
                   = Some (Ev_EVP_PKEY_new_raw_private_key false))
        by (vm_compute; reflexivity).
      rewrite Hh in Hhead. simpl in Hhead. by simplify_eq. }
    destruct (Hfail Hok) as (Hret & Htail & Hsec & _).
    split; [|by split].
    destruct (st_trace (final r)) as [|e tr']; [done|].
    simpl in *. subst tr'. f_equal.
    assert (Hraw : negb (raw_key_support
                           (kex_info (toy_hybkem no_faults)) =? 0) = true)
      by reflexivity.
    rewrite Hok in Hhead. simpl in Hhead. congruence.
Defined.

(** On the toy backend: a context without a key, a ciphertext of two bytes
    that ends the call on [EVP_PKEY_set1_encoded_public_key], and a whole
    decapsulation. *)
Lemma decaps_ctx_unset_at_err_witness :
  let s2 := toy_state no_faults 99 (Some [x06; x06]) (Some (filler 3)) in
  let s3 := toy_state no_faults 99 (Some [x06; x06; x08]) (Some (filler 3)) in
  let r2 := oqs_hyb_kem_decaps (toy_keys no_faults) toy_bound 2 s2 in
  let r3 := oqs_hyb_kem_decaps (toy_keys no_faults) toy_bound 3 s3 in
  oqs_hyb_kem_decaps (toy_keys no_faults) toy_unbound 3 s3 = Fault s3
  ∧ (last (st_trace (final r2))
     = Some (Ev_EVP_PKEY_set1_encoded_public_key None 1 0)
     ∧ returned r2 = None ∧ st_secret (final r2) = Some (filler 3))
  ∧ (returned r3 = Some 1
     ∧ In (Ev_EVP_PKEY_CTX_new true) (st_trace (final r3))).
Proof.
  intros s2 s3 r2 r3.
  split; [|split].
  - exact (proj1 (decaps_ctx_unset_at_err (toy_keys no_faults) toy_unbound 3
                    s3 eq_refl) eq_refl).
  - split; [vm_compute; reflexivity|].
    destruct (proj1 (proj2 (decaps_ctx_unset_at_err (toy_keys no_faults)
                              toy_bound 2 s2 eq_refl)))
      as (Hret & Hsec & _).
    + vm_compute. discriminate.
    + intros ok Hin. vm_compute in Hin. destruct_or?; simplify_eq.
    + by split.
  - assert (Hret : returned r3 = Some 1) by (vm_compute; reflexivity).
    split; [exact Hret|].
    destruct (proj2 (proj2 (decaps_ctx_unset_at_err (toy_keys no_faults)
                              toy_bound 3 s3 eq_refl)) 1 Hret)
      as [(_ & Hnull & _)|[ok Hin]]; [discriminate|].
    fold r3 in Hin.
    assert (Hok : ok = true).
    { vm_compute in Hin. destruct_or?; by simplify_eq. }
    by subst ok.
Defined.
